(** * mlly: module resolution and import rewriting (lib/index.mjs)

    A shallow embedding of [lib/index.mjs].  The file has three layers:

    - [RegExp]: the fragment of ECMAScript regular expressions that the
      source uses ([test], [matchAll], [replace] with the [g] flag,
      look-behind and look-ahead assertions, and patterns compiled at run
      time with [new RegExp]);
    - the run-time model: JavaScript errors, option objects living in a
      heap (they are passed by reference and [transformModule] assigns
      to them), a trace of calls into the host (Node.js), and a small
      state-and-exception monad threading both;
    - the functions of the source, under their own names, followed by the
      theorems about them.

    JavaScript strings are modelled by [string]; a character stands for one
    code unit in the Latin-1 range.  [createCommonJS], which only wraps
    [createRequire], is not part of the model. *)

From Stdlib Require Import Ascii String.
From stdpp Require Import gmap strings list.

(** ** Strings *)

(** The two quote characters of JavaScript string literals. *)
Definition sq : ascii := "'"%char.
Definition dq : ascii := ascii_of_nat 34.

Definition chars (s : string) : list ascii := list_ascii_of_string s.
Definition str (l : list ascii) : string := string_of_list_ascii l.

(** [slice l a b] is [l.slice(a, b)] for [a <= b]. *)
Definition slice {A} (l : list A) (a b : nat) : list A := take (b - a) (drop a l).

(** ** Regular expressions *)

Module RegExp.

Inductive class_item :=
| CChar (c : ascii)
| CRange (lo hi : ascii)
| CSpace                      (* \s *)
| CDigit                      (* \d *)
| CWord.                      (* \w *)

Inductive node :=
| Empty
| Chr (c : ascii)
| Dot                                    (* .  : anything but a line terminator *)
| Class (neg : bool) (items : list class_item)
| Seq (a b : node)
| Alt (a b : node)
| Star (greedy : bool) (a : node)
| Plus (greedy : bool) (a : node)
| Opt (greedy : bool) (a : node)
| Group (a : node)                       (* ( ) and (?: ): captures are never read *)
| LookAhead (neg : bool) (a : node)      (* (?= ) (?! ) *)
| LookBehind (neg : bool) (a : node)     (* (?<= ) (?<! ) *)
| Bol                                    (* ^ without the m flag *)
| Eol.                                   (* $ without the m flag *)

Definition code_unit (c : ascii) : nat := nat_of_ascii c.

Definition is_line_terminator (c : ascii) : bool :=
  (code_unit c =? 10) || (code_unit c =? 13).

Definition is_space (c : ascii) : bool :=
  let n := code_unit c in
  ((9 <=? n) && (n <=? 13)) || (n =? 32) || (n =? 160).

Definition is_digit (c : ascii) : bool :=
  let n := code_unit c in (48 <=? n) && (n <=? 57).

Definition is_word (c : ascii) : bool :=
  let n := code_unit c in
  is_digit c || ((65 <=? n) && (n <=? 90)) || ((97 <=? n) && (n <=? 122)) || (n =? 95).

Definition item_matches (c : ascii) (it : class_item) : bool :=
  match it with
  | CChar d => Ascii.eqb c d
  | CRange lo hi => (code_unit lo <=? code_unit c) && (code_unit c <=? code_unit hi)
  | CSpace => is_space c
  | CDigit => is_digit c
  | CWord => is_word c
  end.

Definition class_matches (neg : bool) (items : list class_item) (c : ascii) : bool :=
  xorb neg (existsb (item_matches c) items).

(** One character of the input at position [i]. *)
Definition one (p : ascii -> bool) (s : list ascii) (i : nat) : list nat :=
  match s !! i with
  | Some c => if p c then [S i] else []
  | None => []
  end.

(** Repetition with minimum 0.  An iteration that consumes nothing is
    rejected, so [len s - i] iterations are enough. *)
Fixpoint star_ends (step : nat -> list nat) (greedy : bool) (fuel i : nat) : list nat :=
  match fuel with
  | 0 => [i]
  | S f =>
      let more := flat_map (fun e => if i <? e then star_ends step greedy f e else []) (step i) in
      if greedy then more ++ [i] else i :: more
  end.

(** [ends r s i]: the positions at which a match of [r] that starts at
    [i] can end, in the order in which the backtracking matcher of the
    language tries them.  The head of the list is the match that [exec]
    reports. *)
Fixpoint ends (r : node) (s : list ascii) (i : nat) : list nat :=
  match r with
  | Empty => [i]
  | Chr c => one (Ascii.eqb c) s i
  | Dot => one (fun c => negb (is_line_terminator c)) s i
  | Class neg items => one (class_matches neg items) s i
  | Seq a b => flat_map (ends b s) (ends a s i)
  | Alt a b => ends a s i ++ ends b s i
  | Star g a => star_ends (ends a s) g (length s - i) i
  | Plus g a => flat_map (fun e => star_ends (ends a s) g (length s - e) e) (ends a s i)
  | Opt g a =>
      let more := filter (fun e => i < e) (ends a s i) in
      if g then more ++ [i] else i :: more
  | Group a => ends a s i
  | LookAhead neg a =>
      if xorb neg (bool_decide (ends a s i <> [])) then [i] else []
  | LookBehind neg a =>
      if xorb neg (existsb (fun j => bool_decide (i ∈ ends a s j)) (seq 0 (S i)))
      then [i] else []
  | Bol => if i =? 0 then [i] else []
  | Eol => if i =? length s then [i] else []
  end.

(** The first position [>= start] at which [r] matches, with the end of
    the match: RegExpBuiltinExec without the sticky flag. *)
Fixpoint find_from (r : node) (s : list ascii) (fuel start : nat) : option (nat * nat) :=
  match fuel with
  | 0 => None
  | S f =>
      match ends r s start with
      | e :: _ => Some (start, e)
      | [] => find_from r s f (S start)
      end
  end.

Definition exec (r : node) (s : list ascii) (lastIndex : nat) : option (nat * nat) :=
  find_from r s (S (length s) - lastIndex) lastIndex.

(** [r.test(s)] for a regular expression without the g flag. *)
Definition test (r : node) (s : string) : bool :=
  bool_decide (is_Some (exec r (chars s) 0)).

(** All matches of a global regular expression, as [(start, end)] pairs:
    the loop shared by [matchAll] and [replace].  After an empty match
    [lastIndex] advances by one. *)
Fixpoint matches_from (r : node) (s : list ascii) (fuel lastIndex : nat) : list (nat * nat) :=
  match fuel with
  | 0 => []
  | S f =>
      match exec r s lastIndex with
      | None => []
      | Some (a, b) => (a, b) :: matches_from r s f (if a =? b then S b else b)
      end
  end.

Definition all_matches (r : node) (s : list ascii) : list (nat * nat) :=
  matches_from r s (S (length s)) 0.

(** [Array.from(s.matchAll(r)).map(m => m[0])] *)
Definition matchAll (r : node) (s : string) : list string :=
  let l := chars s in
  map (fun '(a, b) => str (slice l a b)) (all_matches r l).

(** [s.replace(r, f)] for a global [r] and a replacer [f] that is given
    the matched text, the text before it and the text after it. *)
Fixpoint splice (s : list ascii) (f : list ascii -> list ascii -> list ascii -> list ascii)
    (pos : nat) (ms : list (nat * nat)) : list ascii :=
  match ms with
  | [] => drop pos s
  | (a, b) :: ms' =>
      slice s pos a ++ f (slice s a b) (take a s) (drop b s) ++ splice s f b ms'
  end.

Definition replace_with (r : node) (s : string)
    (f : list ascii -> list ascii -> list ascii -> list ascii) : string :=
  let l := chars s in str (splice l f 0 (all_matches r l)).

(** *** Compiling a pattern: [new RegExp(source)]

    The parser reads the pattern one character at a time.  It accepts
    literals, [.], [^], [$], groups and assertions, alternation, the
    quantifiers [*] [+] [?] and their lazy forms, character classes
    without escapes, and the escapes that need no look-ahead.  What the
    language accepts beyond that (braces as quantifiers, back-references,
    named groups, hexadecimal escapes, quantified look-aheads) is reported
    as [Unsupported], apart from the patterns the language rejects. *)

Inductive compiled :=
| Compiled (r : node)
| SyntaxError (reason : string)
| Unsupported.

Inductive term :=
| TAtom (n : node)
| TQuant (n : node)          (* greedy: a [?] that follows makes it lazy *)
| TLazy (n : node)
| TAssert (n : node)         (* ^ $ and look-behinds cannot be quantified *)
| TAhead (n : node).

Inductive group_kind := GCapture | GNonCapture | GAhead (neg : bool) | GBehind (neg : bool).

Inductive mode :=
| MNormal
| MEscape
| MOpen                       (* after ( *)
| MOpenQ                      (* after (? *)
| MOpenLt                     (* after (?< *)
| MClassStart                 (* after [ *)
| MClassBody (neg : bool) (raw : list ascii).

Record frame := { f_alts : list node; f_cur : list term; f_kind : group_kind }.

Record pstate := {
  stack : list frame;
  alts : list node;           (* finished alternatives of this group, last first *)
  cur : list term;            (* terms of the current alternative, last first *)
  md : mode }.

Definition term_node (t : term) : node :=
  match t with TAtom n | TQuant n | TLazy n | TAssert n | TAhead n => n end.

Definition mk_seq (ts : list term) : node :=
  fold_left (fun acc t => match acc with Empty => term_node t | _ => Seq (term_node t) acc end)
            ts Empty.

Definition mk_alt (finished : list node) (last : node) : node :=
  fold_left (fun acc a => Alt a acc) finished last.

Definition wrap (k : group_kind) (n : node) : term :=
  match k with
  | GCapture | GNonCapture => TAtom (Group n)
  | GAhead neg => TAhead (LookAhead neg n)
  | GBehind neg => TAssert (LookBehind neg n)
  end.

Fixpoint class_items (raw : list ascii) : option (list class_item) :=
  match raw with
  | [] => Some []
  | a :: rest =>
      match rest with
      | dash :: b :: rest' =>
          if Ascii.eqb dash "-"%char then
            if code_unit a <=? code_unit b
            then option_map (cons (CRange a b)) (class_items rest')
            else None
          else option_map (cons (CChar a)) (class_items rest)
      | _ => option_map (cons (CChar a)) (class_items rest)
      end
  end.

Definition escape_atom (c : ascii) : option node :=
  if Ascii.eqb c "s"%char then Some (Class false [CSpace])
  else if Ascii.eqb c "S"%char then Some (Class true [CSpace])
  else if Ascii.eqb c "d"%char then Some (Class false [CDigit])
  else if Ascii.eqb c "D"%char then Some (Class true [CDigit])
  else if Ascii.eqb c "w"%char then Some (Class false [CWord])
  else if Ascii.eqb c "W"%char then Some (Class true [CWord])
  else if Ascii.eqb c "t"%char then Some (Chr (ascii_of_nat 9))
  else if Ascii.eqb c "n"%char then Some (Chr (ascii_of_nat 10))
  else if Ascii.eqb c "v"%char then Some (Chr (ascii_of_nat 11))
  else if Ascii.eqb c "f"%char then Some (Chr (ascii_of_nat 12))
  else if Ascii.eqb c "r"%char then Some (Chr (ascii_of_nat 13))
  else if is_digit c
          || existsb (Ascii.eqb c) ["b"; "B"; "c"; "k"; "x"; "u"; "p"; "P"]%char
       then None
  else Some (Chr c).

Definition push (st : pstate) (t : term) : pstate :=
  {| stack := stack st; alts := alts st; cur := t :: cur st; md := MNormal |}.

Definition set_mode (st : pstate) (m : mode) : pstate :=
  {| stack := stack st; alts := alts st; cur := cur st; md := m |}.

Definition set_kind (st : pstate) (k : group_kind) : pstate + compiled :=
  match stack st with
  | f :: fs =>
      inl {| stack := {| f_alts := f_alts f; f_cur := f_cur f; f_kind := k |} :: fs;
             alts := alts st; cur := cur st; md := MNormal |}
  | [] => inr (SyntaxError "Invalid group")
  end.

Definition quantify (st : pstate) (c : ascii) : pstate + compiled :=
  let q (n : node) : node :=
    if Ascii.eqb c "*"%char then Star true n
    else if Ascii.eqb c "+"%char then Plus true n
    else Opt true n in
  let lazy (n : node) : node :=
    match n with
    | Star _ a => Star false a
    | Plus _ a => Plus false a
    | Opt _ a => Opt false a
    | _ => n
    end in
  match cur st with
  | TAtom n :: rest =>
      inl {| stack := stack st; alts := alts st; cur := TQuant (q n) :: rest; md := MNormal |}
  | TQuant n :: rest =>
      if Ascii.eqb c "?"%char
      then inl {| stack := stack st; alts := alts st; cur := TLazy (lazy n) :: rest; md := MNormal |}
      else inr (SyntaxError "Nothing to repeat")
  | TAhead _ :: _ => inr Unsupported
  | _ => inr (SyntaxError "Nothing to repeat")
  end.

Definition normal_step (st : pstate) (c : ascii) : pstate + compiled :=
  if Ascii.eqb c "\"%char then inl (set_mode st MEscape)
  else if Ascii.eqb c "("%char then
    inl {| stack := {| f_alts := alts st; f_cur := cur st; f_kind := GCapture |} :: stack st;
           alts := []; cur := []; md := MOpen |}
  else if Ascii.eqb c ")"%char then
    match stack st with
    | [] => inr (SyntaxError "Unmatched ')'")
    | f :: fs =>
        inl {| stack := fs; alts := f_alts f;
               cur := wrap (f_kind f) (mk_alt (alts st) (mk_seq (cur st))) :: f_cur f;
               md := MNormal |}
    end
  else if Ascii.eqb c "|"%char then
    inl {| stack := stack st; alts := mk_seq (cur st) :: alts st; cur := []; md := MNormal |}
  else if existsb (Ascii.eqb c) ["*"; "+"; "?"]%char then quantify st c
  else if Ascii.eqb c "["%char then inl (set_mode st MClassStart)
  else if Ascii.eqb c "{"%char then inr Unsupported
  else if Ascii.eqb c "."%char then inl (push st (TAtom Dot))
  else if Ascii.eqb c "^"%char then inl (push st (TAssert Bol))
  else if Ascii.eqb c "$"%char then inl (push st (TAssert Eol))
  else inl (push st (TAtom (Chr c))).

Definition close_class (st : pstate) (neg : bool) (raw : list ascii) : pstate + compiled :=
  match class_items (rev raw) with
  | Some items => inl (push st (TAtom (Class neg items)))
  | None => inr (SyntaxError "Range out of order in character class")
  end.

Definition step (st : pstate) (c : ascii) : pstate + compiled :=
  match md st with
  | MNormal => normal_step st c
  | MEscape =>
      match escape_atom c with
      | Some n => inl (push st (TAtom n))
      | None => inr Unsupported
      end
  | MOpen =>
      if Ascii.eqb c "?"%char then inl (set_mode st MOpenQ) else normal_step st c
  | MOpenQ =>
      if Ascii.eqb c ":"%char then set_kind st GNonCapture
      else if Ascii.eqb c "="%char then set_kind st (GAhead false)
      else if Ascii.eqb c "!"%char then set_kind st (GAhead true)
      else if Ascii.eqb c "<"%char then inl (set_mode st MOpenLt)
      else inr (SyntaxError "Invalid group")
  | MOpenLt =>
      if Ascii.eqb c "="%char then set_kind st (GBehind false)
      else if Ascii.eqb c "!"%char then set_kind st (GBehind true)
      else inr Unsupported
  | MClassStart =>
      if Ascii.eqb c "^"%char then inl (set_mode st (MClassBody true []))
      else if Ascii.eqb c "]"%char then close_class st false []
      else if Ascii.eqb c "\"%char then inr Unsupported
      else inl (set_mode st (MClassBody false [c]))
  | MClassBody neg raw =>
      if Ascii.eqb c "]"%char then close_class st neg raw
      else if Ascii.eqb c "\"%char then inr Unsupported
      else inl (set_mode st (MClassBody neg (c :: raw)))
  end.

Fixpoint run (st : pstate) (src : list ascii) : compiled :=
  match src with
  | c :: src' =>
      match step st c with
      | inl st' => run st' src'
      | inr stop => stop
      end
  | [] =>
      match md st, stack st with
      | MNormal, [] => Compiled (mk_alt (alts st) (mk_seq (cur st)))
      | MEscape, _ => SyntaxError "\ at end of pattern"
      | (MClassStart | MClassBody _ _), _ => SyntaxError "Unterminated character class"
      | _, _ => SyntaxError "Unterminated group"
      end
  end.

Definition compile (source : string) : compiled :=
  run {| stack := []; alts := []; cur := []; md := MNormal |} (chars source).

End RegExp.

Import RegExp.

Local Open Scope string_scope.


(** ** Run-time values *)

(** An error object: the fields the source reads or writes, and what its
    own [toString] method returns when it has one ([None] when the method is
    the inherited [Error.prototype.toString]).  The errors that the module
    creates with [new Error] have none; the resolver of the host gives its
    errors one that puts the code after the name. *)
Record JSError := {
  name : string;
  message : string;
  code : option string;
  toString : option string
}.

(** [String(err)]: the error's own [toString] if it has one, otherwise
    [Error.prototype.toString]. *)
Definition error_toString (e : JSError) : string :=
  match toString e with
  | Some text => text
  | None =>
      if bool_decide (name e = EmptyString) then message e
      else if bool_decide (message e = EmptyString) then name e
      else name e ++ ": " ++ message e
  end.

(** A location given by the caller or by the host: a string, or a [URL]
    object (represented by its [href], which is what [toString] returns). *)
Inductive location := Str (s : string) | URLObject (href : string).

Definition to_string (l : location) : string :=
  match l with Str s => s | URLObject href => href end.

(** The options object.  [None] is an absent ([undefined]) property. *)
Record Options := {
  from : option location;
  url : option location;
  conditions : option (list string);
  extensions : option (list string) }.

Definition no_options : Options :=
  {| from := None; url := None; conditions := None; extensions := None |}.

(** JavaScript truthiness of a property that holds a location. *)
Definition truthy (v : option location) : bool :=
  match v with
  | None => false
  | Some (Str s) => negb (bool_decide (s = EmptyString))
  | Some (URLObject _) => true
  end.

(** The module namespace object that a dynamic [import()] yields. *)
Definition ModuleNamespace := list (string * string).

(** What the source imports from Node.js and from import-meta-resolve.
    A function that can throw returns a sum. *)
Record Host := {
  builtinModules : list string;
  cwd_url : string;                  (* href of pathToFileURL(process.cwd()) *)
  moduleResolve : string -> location -> list string -> JSError + string;
  url_fileURLToPath : location -> JSError + string;
  realpathSync : string -> JSError + string;
  pathToFileURL : string -> string;  (* href of the URL *)
  readFile : string -> JSError + string;
  base64 : string -> string;         (* Buffer.from(code).toString('base64') *)
  dynamic_import : string -> JSError + ModuleNamespace }.

(** Calls that leave the module, in the order in which they happen, and
    the entries into [_resolve]. *)
Inductive Event :=
| EResolve (id : string)
| EModuleResolve (id : string) (base : location) (conds : list string)
| ERealpath (path : string)
| EReadFile (path : string)
| EImport (specifier : string).

Definition touches_filesystem (e : Event) : bool :=
  match e with
  | EModuleResolve _ _ _ | ERealpath _ | EReadFile _ => true
  | EResolve _ | EImport _ => false
  end.

(** ** The monad *)

Abbreviation ref := nat.

Record World := { heap : gmap ref Options; trace : list Event }.

(** How a call ends.  For an [async] function [Normal] is a fulfilled and
    [Throw] a rejected promise.  [Unmodelled] marks a run that leaves the
    modelled fragment (a pattern the parser does not cover, a reference to
    no object). *)
Inductive Completion (A : Type) :=
| Normal (a : A)
| Throw (e : JSError)
| Unmodelled.
Arguments Normal {A} a.
Arguments Throw {A} e.
Arguments Unmodelled {A}.

Definition M (A : Type) : Type := World -> Completion A * World.

Definition ret {A} (a : A) : M A := fun w => (Normal a, w).
Definition throw {A} (e : JSError) : M A := fun w => (Throw e, w).
Definition unmodelled {A} : M A := fun w => (Unmodelled, w).

Definition bind {A B} (m : M A) (k : A -> M B) : M B := fun w =>
  match m w with
  | (Normal a, w') => k a w'
  | (Throw e, w') => (Throw e, w')
  | (Unmodelled, w') => (Unmodelled, w')
  end.

Notation "'let*' x := m 'in' k" := (bind m (fun x => k))
  (at level 10, x name, m at level 100, k at level 200).
Notation "m ;; k" := (bind m (fun _ => k))
  (at level 100, k at level 200, right associativity).

Definition log (e : Event) : M unit := fun w =>
  (Normal tt, {| heap := heap w; trace := trace w ++ [e] |}).

(** A host function that can throw. *)
Definition lift {A} (r : JSError + A) : M A :=
  match r with inl e => throw e | inr a => ret a end.

Definition read (r : ref) : M Options := fun w =>
  match heap w !! r with
  | Some o => (Normal o, w)
  | None => (Unmodelled, w)
  end.

Definition write (r : ref) (o : Options) : M unit := fun w =>
  (Normal tt, {| heap := <[r := o]> (heap w); trace := trace w |}).

(** A new object literal. *)
Definition alloc (o : Options) : M ref := fun w =>
  let r := fresh (dom (heap w)) in
  (Normal r, {| heap := <[r := o]> (heap w); trace := trace w |}).

(** Reading a property of [undefined]. *)
Definition TypeError_undefined (prop : string) : JSError :=
  {| name := "TypeError";
     message := "Cannot read properties of undefined (reading '" ++ prop ++ "')";
     code := None; toString := None |}.

(** ** The module *)

(** [new Set(l)] keeps the first occurrence of every element, in order. *)
Fixpoint new_Set (l : list string) : list string :=
  match l with
  | [] => []
  | x :: l' => x :: filter (fun y => y <> x) (new_Set l')
  end.

Definition pattern (source : string) : node :=
  match compile source with Compiled r => r | _ => Empty end.

(** [/(node|data|http|https):/] *)
Definition PROTOCOL_RE : node :=
  Eval vm_compute in pattern "(node|data|http|https):".

(** [/(node|data|http|https|file):/] *)
Definition PROTOCOL_OR_FILE_RE : node :=
  Eval vm_compute in pattern "(node|data|http|https|file):".

(** [/import\.meta\.url/g] *)
Definition IMPORT_META_URL_RE : node :=
  Eval vm_compute in pattern "import\.meta\.url".

(** The source text of [ESM_IMPORT_RE]; [Q] is the class of the two quote
    characters and [NQ] its complement. *)
Definition ESM_IMPORT_SOURCE : string :=
  let Q := "['" ++ String dq "]" in
  let NQ := "[^'" ++ String dq "]" in
  "(?<=import .* from " ++ Q ++ ")(" ++ NQ ++ "+)(?=" ++ Q ++ ")" ++
  "|(?<=export .* from " ++ Q ++ ")(" ++ NQ ++ "+)(?=" ++ Q ++ ")" ++
  "|(?<=import\s*" ++ Q ++ ")(" ++ NQ ++ "+)(?=" ++ Q ++ ")" ++
  "|(?<=import\s*\(" ++ Q ++ ")(" ++ NQ ++ "+)(?=" ++ Q ++ "\))".

Definition ESM_IMPORT_RE : node :=
  Eval vm_compute in pattern ESM_IMPORT_SOURCE.

Definition DEFAULT_CONDITIONS_SET : list string := new_Set ["node"; "import"].
Definition DEFAULT_EXTENSIONS : list string := [".mjs"; ".cjs"; ".js"; ".json"].
Definition NOT_FOUND_ERRORS : gset string :=
  {[ "ERR_MODULE_NOT_FOUND"; "ERR_UNSUPPORTED_DIR_IMPORT"; "MODULE_NOT_FOUND" ]}.

Definition has_code (s : gset string) (c : option string) : bool :=
  match c with Some c => bool_decide (c ∈ s) | None => false end.

Definition normalizeSlash (s : string) : string :=
  str (map (fun c => if Ascii.eqb c "\"%char then "/"%char else c) (chars s)).

(** The replacement text of [s.replace(re, template)] for a pattern without
    capture groups: GetSubstitution. *)
Fixpoint get_substitution (template matched before after : list ascii) : list ascii :=
  match template with
  | [] => []
  | c :: rest =>
      if Ascii.eqb c "$"%char then
        match rest with
        | d :: rest' =>
            if Ascii.eqb d "$"%char then "$"%char :: get_substitution rest' matched before after
            else if Ascii.eqb d "&"%char then matched ++ get_substitution rest' matched before after
            else if Ascii.eqb d "`"%char then before ++ get_substitution rest' matched before after
            else if Ascii.eqb d sq then after ++ get_substitution rest' matched before after
            else c :: get_substitution rest matched before after
        | [] => [c]
        end
      else c :: get_substitution rest matched before after
  end.

Section Lib.

Variable host : Host.

Definition BUILTIN_MODULES : gset string := list_to_set (builtinModules host).
Definition DEFAULT_FROM : location := URLObject (cwd_url host).

Definition _tryModuleResolve (id : string) (from : location) (conditions : list string)
    : M (option string) :=
  log (EModuleResolve id from conditions);;
  match moduleResolve host id from conditions with
  | inr resolved => ret (Some resolved)
  | inl err =>
      if negb (has_code NOT_FOUND_ERRORS (code err)) then throw err
      else ret None
  end.

Definition normalizeid (id : location) : string :=
  let id := to_string id in
  if test PROTOCOL_OR_FILE_RE id then id
  else if bool_decide (id ∈ BUILTIN_MODULES) then "node:" ++ id
  else "file://" ++ normalizeSlash id.

Definition fileURLToPath (id : location) : M string :=
  match id with
  | Str s =>
      if negb (String.prefix "file://" s) then ret (normalizeSlash s)
      else let* p := lift (url_fileURLToPath host id) in ret (normalizeSlash p)
  | URLObject _ =>
      let* p := lift (url_fileURLToPath host id) in ret (normalizeSlash p)
  end.

(** The inner loop of [_resolve]: [for (const ext of ...)] with its [break]. *)
Fixpoint try_extensions (id prefix : string) (exts : list string)
    (from : location) (conditionsSet : list string) : M (option string) :=
  match exts with
  | [] => ret None
  | ext :: exts' =>
      let* resolved := _tryModuleResolve (id ++ prefix ++ ext) from conditionsSet in
      match resolved with
      | Some _ => ret resolved
      | None => try_extensions id prefix exts' from conditionsSet
      end
  end.

(** The outer loop: [for (const prefix of ['', '/index'])]. *)
Fixpoint try_prefixes (id : string) (prefixes exts : list string)
    (from : location) (conditionsSet : list string) : M (option string) :=
  match prefixes with
  | [] => ret None
  | prefix :: prefixes' =>
      let* resolved := try_extensions id prefix exts from conditionsSet in
      match resolved with
      | Some _ => ret resolved
      | None => try_prefixes id prefixes' exts from conditionsSet
      end
  end.

(** The options of a call: the object behind the reference, or the
    default [{}] when none is given. *)
Definition options_of (opts : option ref) : M Options :=
  match opts with
  | Some r => read r
  | None => ret no_options
  end.

Definition _resolve (id : string) (opts : option ref) : M string :=
  log (EResolve id);;
  (* Skip if already has a protocol *)
  if test PROTOCOL_RE id then ret id
  (* Skip builtins *)
  else if bool_decide (id ∈ BUILTIN_MODULES) then ret ("node:" ++ id)
  else
    let* o := options_of opts in
    (* Defaults *)
    let conditionsSet :=
      match conditions o with Some c => new_Set c | None => DEFAULT_CONDITIONS_SET end in
    let from :=
      match from o with
      | Some f => if truthy (Some f) then Str (normalizeid f) else DEFAULT_FROM
      | None => DEFAULT_FROM
      end in
    (* Try simple resolve *)
    let* resolved := _tryModuleResolve id from conditionsSet in
    (* Try other extensions if not found *)
    let* resolved :=
      match resolved with
      | Some _ => ret resolved
      | None =>
          try_prefixes id [EmptyString; "/index"]
            (match extensions o with Some e => e | None => DEFAULT_EXTENSIONS end)
            from conditionsSet
      end in
    match resolved with
    | None =>
        (* Throw error if not found *)
        throw {| name := "Error";
                 message := "Cannot find module " ++ id ++ " imported from " ++ to_string from;
                 code := Some "ERR_MODULE_NOT_FOUND"; toString := None |}
    | Some resolved =>
        (* Resolve realPath and normalize slash *)
        let* path := fileURLToPath (URLObject resolved) in
        log (ERealpath path);;
        let* realPath := lift (realpathSync host path) in
        ret (pathToFileURL host realPath)
    end.

Definition resolveSync (id : string) (opts : option ref) : M string :=
  _resolve id opts.

(** [new Error(_err)] with the code copied, as a rejected promise: the
    message of the new error is [String(_err)], and the new error is a plain
    one, without a [toString] of its own. *)
Definition _perr {A} (_err : JSError) : M A :=
  throw {| name := "Error"; message := error_toString _err; code := code _err;
           toString := None |}.

(** [_pcall(fn, ...args)]: the promise that [fn(...args)] settles. *)
Definition _pcall {A} (call : M A) : M A := fun w =>
  match call w with
  | (Throw err, w') => _perr err w'
  | other => other
  end.

Definition resolve (id : string) (opts : option ref) : M string :=
  _pcall (resolveSync id opts).

Definition resolvePathSync (id : string) (opts : option ref) : M string :=
  let* resolved := resolveSync id opts in
  fileURLToPath (Str resolved).

Definition resolvePath (id : string) (opts : option ref) : M string :=
  _pcall (resolvePathSync id opts).

Definition createResolve (defaults : ref) (id : string) (from' : option location) : M string :=
  let* d := read defaults in
  let* o := alloc {| from := if truthy from' then from' else from d;
                     url := url d; conditions := conditions d; extensions := extensions d |} in
  resolve id (Some o).

(** *** Evaluate *)

(** [Promise.all(ids.map(async id => ...))]: every callback runs up to
    its first [await] when [map] calls it, and [resolve] does all its work
    before it returns, so the calls happen in order, all of them; the
    promise rejects with the first rejection in that order. *)
Fixpoint Promise_all {A} (calls : list (M A)) : M (list A) := fun w =>
  match calls with
  | [] => (Normal [], w)
  | call :: calls' =>
      let (c, w1) := call w in
      let (cs, w2) := Promise_all calls' w1 in
      (match c, cs with
       | Unmodelled, _ | _, Unmodelled => Unmodelled
       | Throw e, _ => Throw e
       | Normal _, Throw e => Throw e
       | Normal a, Normal l => Normal (a :: l)
       end, w2)
  end.

(** [new RegExp(source, 'g')]; the message of the error for a source that
    is no pattern names the source and the flag. *)
Definition new_RegExp (source : string) : M node :=
  match compile source with
  | Compiled re => ret re
  | SyntaxError reason =>
      throw {| name := "SyntaxError";
               message := "Invalid regular expression: /" ++ source ++ "/g: " ++ reason;
               code := None; toString := None |}
  | Unsupported => unmodelled
  end.

(** [String(resolved.get(id))] *)
Definition get_resolved (resolved : gmap string string) (id : string) : string :=
  match resolved !! id with
  | Some u => u
  | None => "undefined"
  end.

Definition resolveImports (code : string) (opts : option ref) : M string :=
  let imports := matchAll ESM_IMPORT_RE code in
  if bool_decide (imports = []) then ret code
  else
    let uniqueImports := new_Set imports in
    let* o := match opts with
              | Some r => read r
              | None => throw (TypeError_undefined "url")
              end in
    let* resolveOpts := alloc {| from := url o; url := url o;
                                 conditions := conditions o; extensions := extensions o |} in
    let* entries :=
      Promise_all (map (fun id => let* u := resolve id (Some resolveOpts) in ret (id, u))
                       uniqueImports) in
    let resolved : gmap string string := list_to_map entries in
    let* re := new_RegExp (String.concat "|" (map (fun i => "(" ++ i ++ ")") uniqueImports)) in
    ret (replace_with re code
           (fun id _ _ => chars (get_resolved resolved (str id)))).

Definition transformModule (code : string) (opts : option ref) : M string :=
  match opts with
  | None => throw (TypeError_undefined "url")
  | Some r =>
      let* o := read r in
      (* Use url <> from as defaults of each other *)
      (if negb (truthy (url o)) && truthy (from o) then
         write r {| from := from o; url := from o;
                    conditions := conditions o; extensions := extensions o |}
       else if truthy (url o) && negb (truthy (from o)) then
         write r {| from := url o; url := url o;
                    conditions := conditions o; extensions := extensions o |}
       else ret tt);;
      (* Resolve relative imports *)
      let* code := resolveImports code opts in
      (* Rewrite import.meta.url *)
      let* o := read r in
      match url o with
      | Some u =>
          if truthy (Some u) then
            ret (replace_with IMPORT_META_URL_RE code
                   (get_substitution (chars ("'" ++ to_string u ++ "'"))))
          else ret code
      | None => ret code
      end
  end.

Definition toDataURL (code : string) : string :=
  "data:text/javascript;base64," ++ base64 host code.

Definition evalModule (code : string) (opts : option ref) : M ModuleNamespace :=
  let* opts := match opts with
               | Some r => ret r
               | None => alloc no_options
               end in
  let* transformed := transformModule code (Some opts) in
  let specifier := toDataURL transformed in
  log (EImport specifier);;
  lift (dynamic_import host specifier).

Definition readModule (id : string) (opts : option ref) : M (string * string) :=
  let* url := resolve id opts in
  let* path := fileURLToPath (Str url) in
  log (EReadFile path);;
  let* code := lift (readFile host path) in
  ret (url, code).

Definition loadModule (id : string) (opts : option ref) : M ModuleNamespace :=
  let* opts := match opts with
               | Some r => ret r
               | None => alloc no_options
               end in
  let* m := readModule id (Some opts) in
  let* o := read opts in
  let* opts' := alloc {| from := from o;
                         url := match url o with Some u => Some u | None => Some (Str m.1) end;
                         conditions := conditions o; extensions := extensions o |} in
  evalModule m.2 (Some opts').

End Lib.

(** ** A concrete host *)

(** The error of the host's resolver for a package it does not find; its own
    [toString] puts the code after the name. *)
Definition not_found (id : string) : JSError :=
  {| name := "Error"; message := "Cannot find package '" ++ id ++ "'";
     code := Some "ERR_MODULE_NOT_FOUND";
     toString := Some ("Error [ERR_MODULE_NOT_FOUND]: Cannot find package '" ++ id ++ "'") |}.

(** A host whose resolver answers the specifiers of [table] as listed (a
    URL or a failure) and reports every other specifier as not found; paths
    and file URLs differ by the [file://] prefix, and no path is a symbolic
    link. *)
Definition table_host (builtins : list string) (table : list (string * (JSError + string)))
    : Host :=
  {| builtinModules := builtins;
     cwd_url := "file:///work";
     moduleResolve := fun id _ _ =>
       match list_find (fun e => e.1 = id) table with
       | Some (_, e) => e.2
       | None => inl (not_found id)
       end;
     url_fileURLToPath := fun l => inr (String.substring 7 (String.length (to_string l)) (to_string l));
     realpathSync := fun p => inr p;
     pathToFileURL := fun p => "file://" ++ p;
     readFile := fun p => inl (not_found p);
     base64 := fun s => s;
     dynamic_import := fun _ => inr [] |}.

Definition empty_world : World := {| heap := ∅; trace := [] |}.

Definition nl : string := String (ascii_of_nat 10) EmptyString.


(** A project with two packages, one named by a prefix of the other's
    name, and a module of it. *)
Definition vue_host : Host :=
  table_host ["fs"; "path"]
    [("vue", inr "file:///work/node_modules/vue/index.mjs");
     ("vue-router", inr "file:///work/node_modules/vue-router/dist/vue-router.mjs")].

Definition main_options : Options :=
  {| from := None; url := Some (Str "file:///work/src/main.mjs");
     conditions := None; extensions := None |}.

Definition main_world : World := {| heap := {[ 0 := main_options ]}; trace := [] |}.

Definition router_code : string :=
  "import Vue from 'vue'" ++ nl ++
  "import Router from 'vue-router'" ++ nl ++
  "import { createRouter } from 'vue-router'".

Definition broken_code : string :=
  "import Vue from 'vue'" ++ nl ++ "import helper from './missing'".

(** Options with both locations, and options with the origin only. *)
Definition both_options : Options :=
  {| from := Some (Str "file:///elsewhere/entry.mjs");
     url := Some (Str "file:///work/src/main.mjs");
     conditions := None; extensions := None |}.

Definition from_options : Options :=
  {| from := Some (Str "file:///work/src/main.mjs"); url := None;
     conditions := None; extensions := None |}.

Definition world_of (o : Options) : World := {| heap := {[ 0 := o ]}; trace := [] |}.

(** ** Vocabulary of the statements *)

(** The world after some more events. *)
Definition append_trace (w : World) (evs : list Event) : World :=
  {| heap := heap w; trace := trace w ++ evs |}.

(** [sub] occurs in [s]. *)
Definition includes (sub s : string) : Prop :=
  exists pre post, s = pre ++ sub ++ post.

(** The schemes that [_resolve] passes through. *)
Definition PASSED_SCHEMES : list string := ["node:"; "data:"; "http:"; "https:"].

(** The pattern of a word of at least one character. *)
Fixpoint lit (c : ascii) (cs : list ascii) : node :=
  match cs with
  | [] => Chr c
  | c' :: cs' => Seq (Chr c) (lit c' cs')
  end.

(** The record that a call reads its options from. *)
Definition given_options (w : World) (opts : option ref) : option Options :=
  match opts with
  | Some r => heap w !! r
  | None => Some no_options
  end.

(** The base location, condition set and extension list that [_resolve]
    works with under the options [o]. *)
Definition effective_from (host : Host) (o : Options) : location :=
  if truthy (from o)
  then Str (normalizeid host (default (Str EmptyString) (from o)))
  else DEFAULT_FROM host.

Definition effective_conditions (o : Options) : list string :=
  match conditions o with Some c => new_Set c | None => DEFAULT_CONDITIONS_SET end.

Definition effective_extensions (o : Options) : list string :=
  default DEFAULT_EXTENSIONS (extensions o).

(** The fallback candidates of a specifier, in the order of the two loops. *)
Definition candidates (id : string) (exts : list string) : list string :=
  flat_map (fun prefix => map (fun ext => id ++ prefix ++ ext) exts) [EmptyString; "/index"].

(** The host resolver fails on [id] with one of the codes of
    [NOT_FOUND_ERRORS]. *)
Definition soft_miss (host : Host) (from : location) (conds : list string) (id : string) : Prop :=
  exists e, moduleResolve host id from conds = inl e /\
            has_code NOT_FOUND_ERRORS (code e) = true.

Definition attempt (from : location) (conds : list string) (id : string) : Event :=
  EModuleResolve id from conds.

(** The loops of [_resolve] as one pass over a list of specifiers. *)
Fixpoint try_list (host : Host) (ids : list string) (from : location) (conds : list string)
    : M (option string) :=
  match ids with
  | [] => ret None
  | id :: ids' =>
      let* resolved := _tryModuleResolve host id from conds in
      match resolved with
      | Some _ => ret resolved
      | None => try_list host ids' from conds
      end
  end.

(** The end of [_resolve]: real path and file URL of what the host found. *)
Definition canonicalize (host : Host) (resolved : string) : M string :=
  let* path := fileURLToPath host (URLObject resolved) in
  log (ERealpath path);;
  let* realPath := lift (realpathSync host path) in
  ret (pathToFileURL host realPath).

Definition not_found_error (id : string) (from : location) : JSError :=
  {| name := "Error";
     message := "Cannot find module " ++ id ++ " imported from " ++ to_string from;
     code := Some "ERR_MODULE_NOT_FOUND"; toString := None |}.

(** The codes of [NOT_FOUND_ERRORS], spelled out. *)
Definition SOFT_MISS_CODES : list string :=
  ["ERR_MODULE_NOT_FOUND"; "ERR_UNSUPPORTED_DIR_IMPORT"; "MODULE_NOT_FOUND"].

(** What [_resolve] does with the outcome of its attempts. *)
Definition finish (host : Host) (id : string) (from : location) (resolved : option string)
    : M string :=
  match resolved with
  | None => throw (not_found_error id from)
  | Some resolved => canonicalize host resolved
  end.

(** [_resolve] after its options have been read. *)
Definition resolution (host : Host) (id : string) (o : Options) : M string :=
  if test PROTOCOL_RE id then ret id
  else if bool_decide (id ∈ builtinModules host) then ret ("node:" ++ id)
  else
    let* resolved := try_list host (id :: candidates id (effective_extensions o))
                       (effective_from host o) (effective_conditions o) in
    finish host id (effective_from host o) resolved.

(** How [resolve(id, o)] ends and what it calls, whatever the world. *)
Definition resolve_outcome (host : Host) (id : string) (o : Options) : Completion string :=
  (_pcall (resolution host id o) empty_world).1.

Definition resolve_events (host : Host) (id : string) (o : Options) : list Event :=
  EResolve id :: trace (resolution host id o empty_world).2.

(** A computation that does not look at the world: it ends in the same way
    and adds the same events everywhere. *)
Definition oblivious {A} (m : M A) : Prop :=
  forall w, m w = ((m empty_world).1, append_trace w (trace (m empty_world).2)).

(** The options that [transformModule] leaves in the caller's object, and
    the options that [resolveImports] resolves with. *)
Definition with_defaults (o : Options) : Options :=
  if negb (truthy (url o)) && truthy (from o) then
    {| from := from o; url := from o; conditions := conditions o; extensions := extensions o |}
  else if truthy (url o) && negb (truthy (from o)) then
    {| from := url o; url := url o; conditions := conditions o; extensions := extensions o |}
  else o.

Definition import_options (o : Options) : Options :=
  {| from := url o; url := url o; conditions := conditions o; extensions := extensions o |}.

Definition uniqueImports (code : string) : list string :=
  new_Set (matchAll ESM_IMPORT_RE code).

(** What [Promise.all] makes of the outcomes of its promises. *)
Fixpoint settle_all {A} (cs : list (Completion A)) : Completion (list A) :=
  match cs with
  | [] => Normal []
  | c :: cs' =>
      match c, settle_all cs' with
      | Unmodelled, _ | _, Unmodelled => Unmodelled
      | Throw e, _ => Throw e
      | Normal _, Throw e => Throw e
      | Normal a, Normal l => Normal (a :: l)
      end
  end.

(** The entry of the map [resolved] that a resolved specifier yields. *)
Definition entry (host : Host) (o : Options) (id : string) : Completion (string * string) :=
  match resolve_outcome host id o with
  | Normal u => Normal (id, u)
  | Throw e => Throw e
  | Unmodelled => Unmodelled
  end.

(** The last two statements of [resolveImports]. *)
Definition substitute (code : string) (ids : list string) (entries : list (string * string))
    : M string :=
  let resolved : gmap string string := list_to_map entries in
  let* re := new_RegExp (String.concat "|" (map (fun i => "(" ++ i ++ ")") ids)) in
  ret (replace_with re code (fun id _ _ => chars (get_resolved resolved (str id)))).

(** The last statement of [transformModule] but one. *)
Definition rewrite_meta_url (o : Options) (code : string) : string :=
  match url o with
  | Some u =>
      if truthy (Some u)
      then replace_with IMPORT_META_URL_RE code
             (get_substitution (chars ("'" ++ to_string u ++ "'")))
      else code
  | None => code
  end.

(** [id] is the first specifier of [ids] whose resolution fails, with [e]. *)
Definition first_failure (host : Host) (o : Options) (ids : list string)
    (id : string) (e : JSError) : Prop :=
  exists before after,
    ids = (before ++ id :: after)%list /\
    Forall (fun i => exists u, resolve_outcome host i o = Normal u) before /\
    resolve_outcome host id o = Throw e.

(** How [resolveImports(code, o)] and [transformModule(code, o)] end. *)
Definition rewrite_outcome (host : Host) (code : string) (o : Options) : Completion string :=
  if bool_decide (uniqueImports code = []) then Normal code
  else
    match settle_all (map (entry host (import_options o)) (uniqueImports code)) with
    | Normal entries => (substitute code (uniqueImports code) entries empty_world).1
    | Throw e => Throw e
    | Unmodelled => Unmodelled
    end.

Definition transform_outcome (host : Host) (code : string) (o : Options) : Completion string :=
  match rewrite_outcome host code (with_defaults o) with
  | Normal code' => Normal (rewrite_meta_url (with_defaults o) code')
  | Throw e => Throw e
  | Unmodelled => Unmodelled
  end.

(** The events of a rewrite, and the world it leaves: one more object, the
    options that the specifiers were resolved with, unless the text has no
    import. *)
Definition rewrite_events (host : Host) (code : string) (o : Options) : list Event :=
  concat (map (fun id => resolve_events host id (import_options o)) (uniqueImports code)).

Definition rewrite_world (host : Host) (code : string) (o : Options) (w : World) : World :=
  if bool_decide (uniqueImports code = []) then w
  else {| heap := <[fresh (dom (heap w)) := import_options o]> (heap w);
          trace := trace w ++ rewrite_events host code o |}.

Definition is_realpath (ev : Event) : Prop := exists path, ev = ERealpath path.

(** Every call of the host resolver among [evs] has the base [base]. *)
Definition resolved_from (base : location) (evs : list Event) : Prop :=
  Forall (fun ev => forall id b conds, ev = EModuleResolve id b conds -> b = base) evs.

(** A computation that leaves every object as it is. *)
Definition keeps_heap {A} (m : M A) : Prop := forall w, heap (m w).2 = heap w.

(** Replacing every occurrence that the extractor found, where it found
    it, by the URL of the specifier found there: the substitution that the
    text of its description asks for, to compare [resolveImports] with. *)
Definition replace_occurrences (code : string) (resolved : gmap string string) : string :=
  replace_with ESM_IMPORT_RE code (fun id _ _ => chars (get_resolved resolved (str id))).

(** The number of entries into [_resolve] for [id] among [evs]. *)
Definition is_resolve_of (id : string) (ev : Event) : bool :=
  match ev with
  | EResolve i => bool_decide (i = id)
  | _ => false
  end.

Definition resolve_calls (id : string) (evs : list Event) : nat :=
  length (List.filter (is_resolve_of id) evs).

(** A host in which nothing can be resolved. *)
Definition bare_host (builtins : list string) : Host := table_host builtins [].

(** ** Vocabulary of the further statements *)

(** The number of calls of the host resolver among [evs]. *)
Definition is_moduleResolve (ev : Event) : bool :=
  match ev with
  | EModuleResolve _ _ _ => true
  | _ => false
  end.

Definition host_resolver_calls (evs : list Event) : nat :=
  length (List.filter is_moduleResolve evs).

Definition is_import (ev : Event) : bool :=
  match ev with
  | EImport _ => true
  | _ => false
  end.

Definition is_readFile (ev : Event) : bool :=
  match ev with
  | EReadFile _ => true
  | _ => false
  end.

(** A host in which [./link.mjs] is a link to nothing: the resolver finds
    it, the real-path lookup fails. *)
Definition ENOENT (path : string) : JSError :=
  {| name := "Error";
     message := "ENOENT: no such file or directory, realpath '" ++ path ++ "'";
     code := Some "ENOENT"; toString := None |}.

Definition dangling_link_host : Host :=
  let h := table_host [] [("./link.mjs", inr "file:///work/link.mjs")] in
  {| builtinModules := builtinModules h;
     cwd_url := cwd_url h;
     moduleResolve := moduleResolve h;
     url_fileURLToPath := url_fileURLToPath h;
     realpathSync := fun p => inl (ENOENT p);
     pathToFileURL := pathToFileURL h;
     readFile := readFile h;
     base64 := base64 h;
     dynamic_import := dynamic_import h |}.

(** Options that switch the fallback off. *)
Definition no_extensions : Options :=
  {| from := None; url := None; conditions := None; extensions := Some [] |}.

(** The location that [transformModule] resolves the imports of a text
    from: [url], or else [from], or else the working directory. *)
Definition import_base (host : Host) (o : Options) : location :=
  if truthy (url o) then Str (normalizeid host (default (Str EmptyString) (url o)))
  else if truthy (from o) then Str (normalizeid host (default (Str EmptyString) (from o)))
  else DEFAULT_FROM host.

(** How [evalModule(code, o)] ends, and its events. *)
Definition eval_outcome (host : Host) (code : string) (o : Options)
    : Completion ModuleNamespace :=
  match transform_outcome host code o with
  | Normal transformed =>
      match dynamic_import host (toDataURL host transformed) with
      | inr m => Normal m
      | inl e => Throw e
      end
  | Throw e => Throw e
  | Unmodelled => Unmodelled
  end.

Definition eval_events (host : Host) (code : string) (o : Options) : list Event :=
  (rewrite_events host code (with_defaults o) ++
   match transform_outcome host code o with
   | Normal transformed => [EImport (toDataURL host transformed)]
   | _ => []
   end)%list.




Definition backslash : ascii := "\"%char.

(** The parts of [ESM_IMPORT_RE]: each of its four alternatives is a
    look-behind, a run of characters that are no quotes, and a
    look-ahead. *)
Definition QUOTE : node := Class false [CChar sq; CChar dq].
Definition NOT_QUOTE : node := Class true [CChar sq; CChar dq].

Definition branch (behind ahead : node) : node :=
  Seq (LookBehind false behind) (Seq (Group (Plus true NOT_QUOTE)) (LookAhead false ahead)).

Fixpoint last_atom (r : node) : node :=
  match r with
  | Seq _ b => last_atom b
  | _ => r
  end.

Fixpoint first_atom (r : node) : node :=
  match r with
  | Seq a _ => first_atom a
  | _ => r
  end.

Definition is_quote (c : ascii) : Prop := c = sq \/ c = dq.

(** A run of characters that are no quotes. *)
Definition quote_free (l : list ascii) (i e : nat) : Prop :=
  forall k, i <= k < e -> exists c, l !! k = Some c /\ ~ is_quote c.


(** Replacing, from left to right, every occurrence of the non-empty text
    [sub] in [s] by [rep]; [skip] characters of an occurrence are still to
    be dropped. *)
Fixpoint replace_all (sub rep : list ascii) (skip : nat) (s : list ascii) : list ascii :=
  match s with
  | [] => []
  | c :: s' =>
      match skip with
      | S k => replace_all sub rep k s'
      | 0 =>
          if decide (sub `prefix_of` s)
          then rep ++ replace_all sub rep (length sub - 1) s'
          else c :: replace_all sub rep 0 s'
      end
  end.

(** A character that stands for itself in a pattern. *)
Definition plain (c : ascii) : bool :=
  negb (existsb (Ascii.eqb c)
          ["\"; "("; ")"; "|"; "*"; "+"; "?"; "["; "{"; "."; "^"; "$"]%char).

Definition atom (c : ascii) : term := TAtom (Chr c).

(** ** CommonJS *)

Module CommonJS.
Section CommonJS.

(** The values that a required module yields, and the options of
    [require.resolve]. *)
Variables Value ResolveOptions : Type.

(** The function that [createRequire] returns. *)
Record NativeRequire := {
  call : string -> JSError + Value;
  native_resolve : string -> option ResolveOptions -> JSError + string }.

(** What [createCommonJS] uses of Node.js besides [fileURLToPath]. *)
Record Env := {
  dirname : string -> string;
  createRequire : location -> JSError + NativeRequire }.

(** The variable [_nativeRequire] of one call of [createCommonJS], and the
    calls of [createRequire] made for it, in order. *)
Record Cell := { _nativeRequire : option NativeRequire; created : list location }.

Definition fresh_cell : Cell := {| _nativeRequire := None; created := [] |}.

Variable env : Env.
Variable importMeta_url : location.

(** [_nativeRequire || (_nativeRequire = createRequire(importMeta.url))] *)
Definition getNativeRequire (c : Cell) : (JSError + NativeRequire) * Cell :=
  match _nativeRequire c with
  | Some native => (inr native, c)
  | None =>
      match createRequire env importMeta_url with
      | inr native =>
          (inr native, {| _nativeRequire := Some native;
                          created := created c ++ [importMeta_url] |})
      | inl e =>
          (inl e, {| _nativeRequire := None; created := created c ++ [importMeta_url] |})
      end
  end.

Definition require (id : string) (c : Cell) : (JSError + Value) * Cell :=
  match getNativeRequire c with
  | (inr native, c') => (call native id, c')
  | (inl e, c') => (inl e, c')
  end.

Definition require_resolve (id : string) (options : option ResolveOptions) (c : Cell)
    : (JSError + string) * Cell :=
  match getNativeRequire c with
  | (inr native, c') => (native_resolve native id options, c')
  | (inl e, c') => (inl e, c')
  end.

(** The object that [createCommonJS] returns; [require] is the two
    functions above on a fresh cell. *)
Record CommonJSContext := { __filename : string; __dirname : string; cell : Cell }.

Definition createCommonJS (host : Host) : Completion CommonJSContext :=
  match (fileURLToPath host importMeta_url empty_world).1 with
  | Normal filename =>
      Normal {| __filename := filename; __dirname := dirname env filename;
                cell := fresh_cell |}
  | Throw e => Throw e
  | Unmodelled => Unmodelled
  end.

(** A use of [require]: a call, or a call of [require.resolve]. *)
Inductive Use :=
| Require (id : string)
| Resolve (id : string) (options : option ResolveOptions).

Definition Answer : Type := (JSError + Value) + (JSError + string).

Definition use (u : Use) (c : Cell) : Answer * Cell :=
  match u with
  | Require id => let (a, c') := require id c in (inl a, c')
  | Resolve id options => let (a, c') := require_resolve id options c in (inr a, c')
  end.

Fixpoint uses (us : list Use) (c : Cell) : list Answer * Cell :=
  match us with
  | [] => ([], c)
  | u :: us' =>
      let (a, c1) := use u c in
      let (answers, c2) := uses us' c1 in
      (a :: answers, c2)
  end.

(** The answer of the native function itself. *)
Definition native_answer (native : NativeRequire) (u : Use) : Answer :=
  match u with
  | Require id => inl (call native id)
  | Resolve id options => inr (native_resolve native id options)
  end.

Definition failed_answer (e : JSError) (u : Use) : Answer :=
  match u with
  | Require _ => inl (inl e)
  | Resolve _ _ => inr (inl e)
  end.

End CommonJS.

Arguments Require {ResolveOptions} id.
Arguments Resolve {ResolveOptions} id options.

Definition demo_native : NativeRequire string unit :=
  {| call := fun id => inr ("module " ++ id);
     native_resolve := fun id _ => inr ("/work/node_modules/" ++ id ++ "/index.js") |}.

Definition demo_env : Env string unit :=
  {| dirname := fun p => p; createRequire := fun _ => inr demo_native |}.

End CommonJS.

Ltac soft_miss_here := eexists; split; [reflexivity | by vm_compute].

(** ** The patterns and the extractor on examples *)

Example PROTOCOL_RE_compiled : compile "(node|data|http|https):" = Compiled PROTOCOL_RE.
Proof. reflexivity. Qed.

Example PROTOCOL_OR_FILE_RE_compiled :
  compile "(node|data|http|https|file):" = Compiled PROTOCOL_OR_FILE_RE.
Proof. reflexivity. Qed.

Example IMPORT_META_URL_RE_compiled : compile "import\.meta\.url" = Compiled IMPORT_META_URL_RE.
Proof. reflexivity. Qed.

Example ESM_IMPORT_RE_compiled : compile ESM_IMPORT_SOURCE = Compiled ESM_IMPORT_RE.
Proof. reflexivity. Qed.

(** The four shapes, with either quote. *)
Example extract_static_import :
  matchAll ESM_IMPORT_RE ("import { a, b } from " ++ String dq "./a.js" ++ String dq ";")
  = ["./a.js"].
Proof. by vm_compute. Qed.

Example extract_export_from :
  matchAll ESM_IMPORT_RE "export * from './b.js'" = ["./b.js"].
Proof. by vm_compute. Qed.

Example extract_side_effect_import :
  matchAll ESM_IMPORT_RE "import'./c.js'; import   './d.js'" = ["./c.js"; "./d.js"].
Proof. by vm_compute. Qed.

Example extract_dynamic_import :
  matchAll ESM_IMPORT_RE "const m = await import('./e.js')" = ["./e.js"].
Proof. by vm_compute. Qed.

Example extract_nothing :
  matchAll ESM_IMPORT_RE "export const x = 1" = [].
Proof. by vm_compute. Qed.

(** Patterns made of specifiers: metacharacters keep their meaning. *)
Example compile_alternation :
  compile "(vue)|(vue-router)" =
  Compiled (Alt (Group (lit "v" ["u"; "e"]%char))
                (Group (lit "v" ["u"; "e"; "-"; "r"; "o"; "u"; "t"; "e"; "r"]%char))).
Proof. reflexivity. Qed.

Example compile_nothing_to_repeat : compile "(./c++/x.js)" = SyntaxError "Nothing to repeat".
Proof. reflexivity. Qed.

(** The pattern is made of the specifiers as they are written: one with a
    doubled [+] is no pattern, and [new RegExp] throws once the specifiers
    are resolved. *)
Example resolveImports_invalid_pattern :
  (resolveImports (table_host [] [("c++", inr "file:///work/node_modules/c++/index.mjs")])
     "import x from 'c++'" (Some 0) main_world).1 =
  Throw {| name := "SyntaxError";
           message := "Invalid regular expression: /(c++)/g: Nothing to repeat";
           code := None; toString := None |}.
Proof. by vm_compute. Qed.

Example compile_braces : compile "(./a{2}.js)" = Unsupported.
Proof. reflexivity. Qed.

(** [transformModule] on a text with an import and [import.meta.url]. *)
Example transformModule_main :
  (transformModule vue_host ("import Vue from 'vue'; console.log(import.meta.url)")
     (Some 0) main_world).1
  = Normal ("import Vue from 'file:///work/node_modules/vue/index.mjs'; " ++
            "console.log('file:///work/src/main.mjs')").
Proof. by vm_compute. Qed.

(** ** Running the monad *)

Lemma append_trace_nil w : append_trace w [] = w.
Proof. destruct w as [h t]. unfold append_trace. cbn. by rewrite app_nil_r. Qed.

Lemma append_trace_app w a b :
  append_trace (append_trace w a) b = append_trace w (a ++ b).
Proof. unfold append_trace. cbn. by rewrite app_assoc. Qed.

Lemma log_run e w : log e w = (Normal tt, append_trace w [e]).
Proof. reflexivity. Qed.

Lemma bind_log {A} e (k : M A) w : (log e;; k) w = k (append_trace w [e]).
Proof. reflexivity. Qed.

(** ** Specifiers that carry a scheme *)

Lemma chars_app a b : chars (a ++ b) = (chars a ++ chars b)%list.
Proof.
  induction a as [|x a IH]; [done|].
  change (x :: chars (a ++ b) = x :: (chars a ++ chars b)%list). by rewrite IH.
Qed.

Lemma str_chars s : str (chars s) = s.
Proof. apply string_of_list_ascii_of_string. Qed.

Lemma chars_str l : chars (str l) = l.
Proof. apply list_ascii_of_string_of_list_ascii. Qed.

Lemma ends_Chr c l i :
  ends (Chr c) l i = if decide ([c] `prefix_of` drop i l) then [S i] else [].
Proof.
  cbn. unfold one. destruct (l !! i) as [x|] eqn:E.
  - rewrite (drop_S l x i E). destruct (Ascii.eqb c x) eqn:Ec.
    + apply Ascii.eqb_eq in Ec as ->. rewrite decide_True; [done|].
      apply prefix_cons, prefix_nil.
    + rewrite decide_False; [done|]. intros H%prefix_cons_inv_1. subst.
      by rewrite Ascii.eqb_refl in Ec.
  - rewrite drop_ge by (by apply lookup_ge_None).
    rewrite decide_False; [done|]. apply prefix_nil_not.
Qed.

Lemma ends_lit c cs l i :
  ends (lit c cs) l i =
  if decide ((c :: cs) `prefix_of` drop i l) then [i + S (length cs)] else [].
Proof.
  revert c i. induction cs as [|c' cs IH]; intros c i.
  - cbn [lit]. rewrite ends_Chr. case_decide; [f_equal; cbn; lia | done].
  - cbn [lit].
    change (ends (Seq (Chr c) (lit c' cs)) l i)
      with (flat_map (ends (lit c' cs) l) (ends (Chr c) l i)).
    rewrite ends_Chr.
    destruct (decide ([c] `prefix_of` drop i l)) as [[k Hk]|H].
    + cbn [flat_map]. rewrite app_nil_r, IH.
      assert (drop (S i) l = k) as Hd.
      { replace (S i) with (i + 1) by lia. rewrite <- drop_drop, Hk. done. }
      rewrite Hd, Hk. cbn [app].
      destruct (decide ((c' :: cs) `prefix_of` k)) as [Hp|Hp].
      * rewrite decide_True by (by apply prefix_cons). f_equal. cbn. lia.
      * rewrite decide_False; [done|]. by intros ?%prefix_cons_inv_2.
    + cbn. rewrite decide_False; [done|].
      intros [k Hk]. apply H. exists (c' :: cs ++ k)%list. by rewrite Hk.
Qed.

Lemma ends_lit_then c cs d l i :
  flat_map (ends (Chr d) l) (ends (lit c cs) l i) =
  if decide ((c :: cs ++ [d])%list `prefix_of` drop i l) then [i + S (S (length cs))] else [].
Proof.
  rewrite ends_lit. destruct (decide ((c :: cs) `prefix_of` drop i l)) as [[k Hk]|H].
  - cbn [flat_map]. rewrite app_nil_r, ends_Chr.
    assert (drop (i + S (length cs)) l = k) as Hd.
    { rewrite <- drop_drop, Hk. by apply (drop_app_length' (c :: cs)). }
    rewrite Hd, Hk. change (c :: cs ++ [d])%list with ((c :: cs) ++ [d])%list.
    destruct (decide ([d] `prefix_of` k)) as [Hp|Hp].
    + rewrite decide_True by (by apply prefix_app). f_equal. lia.
    + rewrite decide_False; [done|]. by intros ?%prefix_app_inv.
  - cbn. rewrite decide_False; [done|].
    intros [k Hk]. apply H. exists ([d] ++ k)%list. rewrite Hk.
    change (c :: cs ++ [d])%list with ((c :: cs) ++ [d])%list. by rewrite <- app_assoc.
Qed.

Lemma PROTOCOL_RE_matches_at l i :
  ends PROTOCOL_RE l i <> [] <->
  exists scheme, scheme ∈ PASSED_SCHEMES /\ chars scheme `prefix_of` drop i l.
Proof.
  change PROTOCOL_RE with
    (Seq (Group (Alt (lit "n" ["o"; "d"; "e"])
                (Alt (lit "d" ["a"; "t"; "a"])
                (Alt (lit "h" ["t"; "t"; "p"]) (lit "h" ["t"; "t"; "p"; "s"])))))
         (Chr ":"))%char.
  change (ends (Seq (Group (Alt ?a (Alt ?b (Alt ?c ?d)))) ?e) l i)
    with (flat_map (ends e l) (ends a l i ++ ends b l i ++ ends c l i ++ ends d l i)).
  rewrite !List.flat_map_app, !ends_lit_then.
  unfold PASSED_SCHEMES. split.
  - intros H.
    destruct (decide (chars "node:" `prefix_of` drop i l)) as [H1|H1];
      [exists "node:"; split; [rewrite !elem_of_cons; auto | done]|].
    destruct (decide (chars "data:" `prefix_of` drop i l)) as [H2|H2];
      [exists "data:"; split; [rewrite !elem_of_cons; auto | done]|].
    destruct (decide (chars "http:" `prefix_of` drop i l)) as [H3|H3];
      [exists "http:"; split; [rewrite !elem_of_cons; auto | done]|].
    destruct (decide (chars "https:" `prefix_of` drop i l)) as [H4|H4];
      [exists "https:"; split; [rewrite !elem_of_cons; auto 6 | done]|].
    by rewrite !decide_False in H by assumption.
  - intros (scheme & Hin & Hp). revert Hin.
    rewrite !elem_of_cons, elem_of_nil.
    intros [-> | [-> | [-> | [-> | []]]]];
      repeat case_decide; done.
Qed.

Lemma find_from_is_Some r l fuel start :
  is_Some (find_from r l fuel start) <->
  exists i, start <= i < start + fuel /\ ends r l i <> [].
Proof.
  revert start. induction fuel as [|fuel IH]; intros start; cbn.
  - split; [by intros [? ?] | intros (i & ? & _); lia].
  - destruct (ends r l start) as [|e es] eqn:E.
    + rewrite IH. split.
      * intros (i & Hi & Hne). exists i. split; [lia | done].
      * intros (i & Hi & Hne). exists i. split; [|done].
        destruct (decide (i = start)) as [->|]; [congruence | lia].
    + split; [|by eexists]. intros _. exists start. split; [lia|]. by rewrite E.
Qed.

Lemma test_true r s :
  test r s = true <-> exists i, i <= length (chars s) /\ ends r (chars s) i <> [].
Proof.
  unfold test, exec. rewrite bool_decide_eq_true, find_from_is_Some.
  split; intros (i & Hi & Hne); exists i; (split; [lia | done]).
Qed.

Lemma includes_chars sub s :
  includes sub s <-> exists i, i <= length (chars s) /\ chars sub `prefix_of` drop i (chars s).
Proof.
  split.
  - intros (pre & post & ->). exists (length (chars pre)).
    rewrite !chars_app, length_app, drop_app_length. split; [lia|]. by exists (chars post).
  - intros (i & Hi & k & Hk). exists (str (take i (chars s))), (str k).
    rewrite <- (str_chars s) at 1.
    rewrite <- (str_chars (str (take i (chars s)) ++ sub ++ str k)). f_equal.
    rewrite !chars_app, !chars_str, <- Hk. by rewrite take_drop.
Qed.

(** The test of [_resolve] is a search for one of four words. *)
Lemma test_PROTOCOL_RE id :
  test PROTOCOL_RE id = true <->
  exists scheme, scheme ∈ PASSED_SCHEMES /\ includes scheme id.
Proof.
  rewrite test_true. split.
  - intros (i & Hi & (scheme & Hin & Hp)%PROTOCOL_RE_matches_at).
    exists scheme. split; [done|]. apply includes_chars. by exists i.
  - intros (scheme & Hin & (i & Hi & Hp)%includes_chars).
    exists i. split; [done|]. apply PROTOCOL_RE_matches_at. by exists scheme.
Qed.

Lemma scheme_prefix_recognized scheme rest :
  scheme ∈ PASSED_SCHEMES -> test PROTOCOL_RE (scheme ++ rest) = true.
Proof.
  unfold PASSED_SCHEMES. rewrite !elem_of_cons, elem_of_nil.
  intros [-> | [-> | [-> | [-> | []]]]]; reflexivity.
Qed.

Lemma _resolve_scheme host id opts w :
  test PROTOCOL_RE id = true ->
  _resolve host id opts w = (Normal id, append_trace w [EResolve id]).
Proof. intros H. unfold _resolve. rewrite bind_log, H. reflexivity. Qed.

(** C1, as amended.  A specifier that contains [node:], [data:], [http:]
    or [https:] (for one, a specifier that starts with it) is returned
    unchanged by [resolveSync] and by [resolve], with no call of the host,
    and resolving the result again returns it again. *)
Theorem resolve_scheme_unchanged host id opts w :
  (exists scheme, scheme ∈ PASSED_SCHEMES /\ includes scheme id) ->
  resolveSync host id opts w = (Normal id, append_trace w [EResolve id]) /\
  resolve host id opts w = (Normal id, append_trace w [EResolve id]) /\
  forall w', (resolve host id opts w').1 = Normal id.
Proof.
  intros H%test_PROTOCOL_RE. unfold resolve, _pcall, resolveSync.
  split; [|split]; [| |intros w']; by rewrite _resolve_scheme.
Qed.

Lemma resolve_scheme_unchanged_witness :
  (exists scheme, scheme ∈ PASSED_SCHEMES /\ includes scheme "https://esm.sh/vue") /\
  (resolve (bare_host []) "https://esm.sh/vue" None empty_world).1
  = Normal "https://esm.sh/vue".
Proof.
  assert (exists scheme, scheme ∈ PASSED_SCHEMES /\ includes scheme "https://esm.sh/vue") as Hs.
  { exists "https:". split.
    - unfold PASSED_SCHEMES. rewrite !elem_of_cons. auto 6.
    - by exists EmptyString, "//esm.sh/vue". }
  split; [exact Hs|].
  destruct (resolve_scheme_unchanged (bare_host []) "https://esm.sh/vue" None empty_world Hs)
    as (_ & H & _).
  rewrite H. reflexivity.
Defined.

(** C1, the counterexample: a specifier with the [file:] scheme is handed
    to the host resolver; when the file does not exist the call fails
    instead of returning the specifier. *)
Lemma file_scheme_not_passed_through :
  String.prefix "file:" "file:///work/missing.mjs" = true /\
  (resolveSync (bare_host []) "file:///work/missing.mjs" None empty_world).1
  = Throw {| name := "Error";
             message := "Cannot find module file:///work/missing.mjs imported from file:///work";
             code := Some "ERR_MODULE_NOT_FOUND"; toString := None |} /\
  (resolveSync (bare_host []) "file:///work/missing.mjs" None empty_world).1
  <> Normal "file:///work/missing.mjs".
Proof. split; [reflexivity|]. split; [by vm_compute|]. by vm_compute. Qed.


(** ** Builtin modules *)

(** C9, as amended.  For a builtin module name [resolve] returns at once,
    and the only event is the entry into [_resolve]: the host resolver, the
    real-path lookup and the file system are not called.  The result is
    [node:] followed by the name, unless the name itself contains one of the
    passed schemes, in which case it is the name. *)
Theorem builtin_resolves_without_filesystem host b opts w :
  b ∈ builtinModules host ->
  exists evs,
    resolve host b opts w =
      (Normal (if test PROTOCOL_RE b then b else "node:" ++ b), append_trace w evs) /\
    Forall (fun e => touches_filesystem e = false) evs.
Proof.
  intros Hb. exists [EResolve b]. split; [|by repeat constructor].
  unfold resolve, _pcall, resolveSync, _resolve. rewrite bind_log.
  destruct (test PROTOCOL_RE b); [reflexivity|].
  rewrite bool_decide_eq_true_2; [reflexivity|].
  unfold BUILTIN_MODULES. by apply elem_of_list_to_set.
Qed.

Lemma builtin_resolves_without_filesystem_witness :
  "fs" ∈ builtinModules (bare_host ["fs"; "path"]) /\
  (resolve (bare_host ["fs"; "path"]) "fs" None empty_world).1 = Normal "node:fs".
Proof.
  assert ("fs" ∈ builtinModules (bare_host ["fs"; "path"])) as Hin
    by (cbn; apply list_elem_of_here).
  split; [exact Hin|].
  destruct (builtin_resolves_without_filesystem (bare_host ["fs"; "path"]) "fs" None empty_world Hin)
    as (evs & H & _).
  rewrite H. reflexivity.
Defined.

(** C9, the counterexample: a builtin name that already has the [node:]
    prefix (Node.js lists [node:test] among its builtin modules) is returned
    as it is, not with a second prefix. *)
Lemma prefixed_builtin_returned_unchanged :
  "node:test" ∈ builtinModules (bare_host ["fs"; "node:test"]) /\
  (resolve (bare_host ["fs"; "node:test"]) "node:test" None empty_world).1
  = Normal "node:test" /\
  (resolve (bare_host ["fs"; "node:test"]) "node:test" None empty_world).1
  <> Normal ("node:" ++ "node:test").
Proof.
  split; [cbn; apply list_elem_of_further, list_elem_of_here|].
  split; [by vm_compute|]. by vm_compute.
Qed.

(** ** The fallback loops *)

Lemma _tryModuleResolve_run host id from conds w :
  _tryModuleResolve host id from conds w =
    (match moduleResolve host id from conds with
     | inr u => Normal (Some u)
     | inl e => if has_code NOT_FOUND_ERRORS (code e) then Normal None else Throw e
     end, append_trace w [attempt from conds id]).
Proof.
  unfold _tryModuleResolve. rewrite bind_log.
  destruct (moduleResolve host id from conds) as [e|u]; [|reflexivity].
  by destruct (has_code NOT_FOUND_ERRORS (code e)).
Qed.

Lemma _tryModuleResolve_soft host id from conds w :
  soft_miss host from conds id ->
  _tryModuleResolve host id from conds w = (Normal None, append_trace w [attempt from conds id]).
Proof. intros (e & He & Hc). by rewrite _tryModuleResolve_run, He, Hc. Qed.

Lemma try_extensions_try_list host id prefix exts from conds w :
  try_extensions host id prefix exts from conds w =
  try_list host (map (fun ext => id ++ prefix ++ ext) exts) from conds w.
Proof.
  revert w. induction exts as [|ext exts IH]; intros w; [reflexivity|].
  cbn. unfold bind. destruct (_tryModuleResolve _ _ _ _ w) as [[[u|]| |] w']; auto.
Qed.

Lemma try_list_app host l1 l2 from conds w :
  try_list host (l1 ++ l2) from conds w =
  (let* resolved := try_list host l1 from conds in
   match resolved with
   | Some _ => ret resolved
   | None => try_list host l2 from conds
   end) w.
Proof.
  revert w. induction l1 as [|id l1 IH]; intros w; [reflexivity|].
  cbn. unfold bind in *.
  destruct (_tryModuleResolve _ _ _ _ w) as [[[u|]| |] w']; auto.
Qed.

Lemma try_prefixes_try_list host id prefixes exts from conds w :
  try_prefixes host id prefixes exts from conds w =
  try_list host (flat_map (fun prefix => map (fun ext => id ++ prefix ++ ext) exts) prefixes)
           from conds w.
Proof.
  revert w. induction prefixes as [|prefix prefixes IH]; intros w; [reflexivity|].
  cbn [try_prefixes flat_map]. rewrite try_list_app. unfold bind.
  rewrite try_extensions_try_list.
  destruct (try_list _ _ _ _ w) as [[[u|]| |] w']; auto.
Qed.

(** The attempts before the first one that does not soft-miss. *)
Lemma try_list_skip host l1 l2 from conds w :
  Forall (soft_miss host from conds) l1 ->
  try_list host (l1 ++ l2) from conds w =
  try_list host l2 from conds (append_trace w (map (attempt from conds) l1)).
Proof.
  revert w. induction l1 as [|id l1 IH]; intros w Hl1.
  - by rewrite append_trace_nil.
  - apply Forall_cons in Hl1 as [Hid Hl1]. cbn. unfold bind.
    rewrite _tryModuleResolve_soft by done. rewrite IH by done.
    by rewrite append_trace_app.
Qed.

(** [_resolve] on a specifier that is neither schemed nor builtin. *)
Lemma _resolve_run host id opts o w :
  test PROTOCOL_RE id = false ->
  id ∉ builtinModules host ->
  given_options w opts = Some o ->
  _resolve host id opts w =
  (let* resolved := try_list host (id :: candidates id (effective_extensions o))
                      (effective_from host o) (effective_conditions o) in
   match resolved with
   | None => throw (not_found_error id (effective_from host o))
   | Some resolved => canonicalize host resolved
   end) (append_trace w [EResolve id]).
Proof.
  intros Hp Hb Ho. unfold _resolve. rewrite bind_log, Hp.
  rewrite bool_decide_eq_false_2
    by (unfold BUILTIN_MODULES; by rewrite elem_of_list_to_set).
  set (w1 := append_trace w [EResolve id]).
  assert (options_of opts w1 = (Normal o, w1)) as Hread.
  { destruct opts as [r|]; cbn in *; [|by simplify_eq].
    unfold read. cbn. by rewrite Ho. }
  unfold bind at 1. rewrite Hread.
  assert (match from o with
          | Some f => if truthy (Some f) then Str (normalizeid host f) else DEFAULT_FROM host
          | None => DEFAULT_FROM host
          end = effective_from host o) as ->.
  { unfold effective_from. by destruct (from o). }
  fold (effective_conditions o).
  cbn [try_list]. unfold bind.
  destruct (_tryModuleResolve _ _ _ _ w1) as [[[u|]| |] w2]; try reflexivity.
  rewrite try_prefixes_try_list. reflexivity.
Qed.


Lemma candidates_order id exts :
  candidates id exts =
  (map (fun ext => id +:+ ext) exts ++ map (fun ext => id +:+ "/index" +:+ ext) exts)%list.
Proof. unfold candidates. cbn. by rewrite app_nil_r. Qed.

(** What [_resolve] does once the attempts before position [k] have all
    soft-missed: the attempt at [k], then the rest. *)
Lemma _resolve_skip host id opts o w k c :
  test PROTOCOL_RE id = false ->
  id ∉ builtinModules host ->
  given_options w opts = Some o ->
  let attempts := id :: candidates id (effective_extensions o) in
  attempts !! k = Some c ->
  Forall (soft_miss host (effective_from host o) (effective_conditions o)) (take k attempts) ->
  _resolve host id opts w =
  (let* resolved := try_list host (c :: drop (S k) attempts)
                      (effective_from host o) (effective_conditions o) in
   match resolved with
   | None => throw (not_found_error id (effective_from host o))
   | Some resolved => canonicalize host resolved
   end)
    (append_trace w (EResolve id ::
       map (attempt (effective_from host o) (effective_conditions o)) (take k attempts))).
Proof.
  intros Hp Hb Ho attempts Hk Hsoft.
  rewrite (_resolve_run host id opts o) by done. fold attempts.
  rewrite <- (take_drop_middle attempts k c Hk) at 1.
  unfold bind. rewrite try_list_skip by done. by rewrite append_trace_app.
Qed.

(** C4.  When the literal specifier soft-misses, the candidates are the
    specifier followed by each extension and then the specifier followed by
    [/index] and each extension; they are tried in this order, and the
    first one that the host resolves ends the search: the host resolver is
    called for the literal specifier and the candidates up to that one, and
    the answer is canonicalized. *)
Theorem fallback_candidates_in_order host id opts o w k c u :
  test PROTOCOL_RE id = false ->
  id ∉ builtinModules host ->
  given_options w opts = Some o ->
  let from := effective_from host o in
  let conds := effective_conditions o in
  let exts := default [".mjs"; ".cjs"; ".js"; ".json"] (extensions o) in
  let cands :=
    (map (fun ext => id +:+ ext) exts ++ map (fun ext => id +:+ "/index" +:+ ext) exts)%list in
  soft_miss host from conds id ->
  cands !! k = Some c ->
  Forall (soft_miss host from conds) (take k cands) ->
  moduleResolve host c from conds = inr u ->
  let w' := append_trace w (EResolve id :: map (attempt from conds) (id :: take (S k) cands)) in
  resolveSync host id opts w = canonicalize host u w' /\
  resolve host id opts w = _pcall (canonicalize host u) w'.
Proof.
  intros Hp Hb Ho from conds exts cands Hid Hk Hsoft Hu w'.
  assert (candidates id (effective_extensions o) = cands) as Hc
    by (unfold effective_extensions; by rewrite candidates_order).
  assert (resolveSync host id opts w = canonicalize host u w') as H.
  { unfold resolveSync.
    rewrite (_resolve_skip host id opts o w (S k) c); try done.
    - rewrite Hc. unfold bind. cbn [try_list]. unfold bind.
      rewrite _tryModuleResolve_run. fold from conds. rewrite Hu.
      rewrite append_trace_app. unfold w'. do 2 f_equal.
      cbn [take map app]. f_equal. f_equal.
      rewrite (take_S_r _ _ c) by done. by rewrite map_app.
    - by rewrite Hc.
    - rewrite Hc. cbn. by constructor. }
  split; [done|]. unfold resolve, _pcall. by rewrite H.
Qed.


Lemma fallback_candidates_in_order_witness :
  let host := table_host [] [("./a/b.js", inr "file:///work/a/b.js")] in
  soft_miss host (DEFAULT_FROM host) DEFAULT_CONDITIONS_SET "./a/b" /\
  (resolveSync host "./a/b" None empty_world).1 = Normal "file:///work/a/b.js" /\
  trace (resolveSync host "./a/b" None empty_world).2 =
    [EResolve "./a/b";
     EModuleResolve "./a/b" (URLObject "file:///work") ["node"; "import"];
     EModuleResolve "./a/b.mjs" (URLObject "file:///work") ["node"; "import"];
     EModuleResolve "./a/b.cjs" (URLObject "file:///work") ["node"; "import"];
     EModuleResolve "./a/b.js" (URLObject "file:///work") ["node"; "import"];
     ERealpath "/work/a/b.js"].
Proof.
  intros host.
  assert (soft_miss host (DEFAULT_FROM host) DEFAULT_CONDITIONS_SET "./a/b") as Hsoft
    by soft_miss_here.
  split; [exact Hsoft|].
  destruct (fallback_candidates_in_order host "./a/b" None no_options empty_world
              2 "./a/b.js" "file:///work/a/b.js") as [H _].
  - reflexivity.
  - cbn. by intros ?%elem_of_nil.
  - reflexivity.
  - exact Hsoft.
  - reflexivity.
  - repeat constructor; soft_miss_here.
  - reflexivity.
  - rewrite H. split; reflexivity.
Defined.

(** ** Failures of the host resolver *)

Lemma has_code_soft c :
  has_code NOT_FOUND_ERRORS c = true <-> exists c', c = Some c' /\ c' ∈ SOFT_MISS_CODES.
Proof.
  unfold has_code, NOT_FOUND_ERRORS, SOFT_MISS_CODES. destruct c as [c|].
  - rewrite bool_decide_eq_true. split.
    + rewrite !elem_of_union, !elem_of_singleton. intros H. exists c. split; [done|].
      rewrite !elem_of_cons, elem_of_nil. tauto.
    + intros (c' & [= <-] & H). revert H.
      rewrite !elem_of_union, !elem_of_singleton, !elem_of_cons, elem_of_nil. tauto.
  - split; [done|]. by intros (c' & ? & _).
Qed.

(** The attempt at position [k] fails with [e], the attempts before it
    having soft-missed. *)
Lemma resolveSync_failure_at host id opts o w k c e :
  test PROTOCOL_RE id = false ->
  id ∉ builtinModules host ->
  given_options w opts = Some o ->
  let from := effective_from host o in
  let conds := effective_conditions o in
  let attempts := id :: candidates id (effective_extensions o) in
  attempts !! k = Some c ->
  Forall (soft_miss host from conds) (take k attempts) ->
  moduleResolve host c from conds = inl e ->
  resolveSync host id opts w =
  (if has_code NOT_FOUND_ERRORS (code e)
   then let* resolved := try_list host (drop (S k) attempts) from conds in
        finish host id from resolved
   else throw e)
    (append_trace w (EResolve id :: map (attempt from conds) (take (S k) attempts))).
Proof.
  intros Hp Hb Ho from conds attempts Hk Hsoft He.
  set (w' := append_trace w (EResolve id :: map (attempt from conds) (take (S k) attempts))).
  assert (w' = append_trace
                 (append_trace w (EResolve id :: map (attempt from conds) (take k attempts)))
                 [attempt from conds c]) as Hw'.
  { rewrite append_trace_app. unfold w'. rewrite (take_S_r _ _ c) by done.
    by rewrite map_app. }
  unfold resolveSync. rewrite (_resolve_skip host id opts o w k c) by done.
  fold from conds attempts. unfold bind. cbn [try_list]. unfold bind.
  rewrite _tryModuleResolve_run, He, <- Hw'.
  by destruct (has_code NOT_FOUND_ERRORS (code e)).
Qed.

(** Through the asynchronous [resolve], a failure that is no soft miss
    arrives as a new error with the same code, whose message is the text of
    the original error. *)
Lemma resolve_failure_rewrapped host id opts o w k c e :
  test PROTOCOL_RE id = false ->
  id ∉ builtinModules host ->
  given_options w opts = Some o ->
  let from := effective_from host o in
  let conds := effective_conditions o in
  let attempts := id :: candidates id (effective_extensions o) in
  attempts !! k = Some c ->
  Forall (soft_miss host from conds) (take k attempts) ->
  moduleResolve host c from conds = inl e ->
  has_code NOT_FOUND_ERRORS (code e) = false ->
  resolve host id opts w =
  (Throw {| name := "Error"; message := error_toString e; code := code e;
            toString := None |},
   append_trace w (EResolve id :: map (attempt from conds) (take (S k) attempts))).
Proof.
  intros Hp Hb Ho from conds attempts Hk Hsoft He Hc.
  unfold resolve, _pcall.
  rewrite (resolveSync_failure_at host id opts o w k c e) by done.
  fold from conds attempts. by rewrite Hc.
Qed.

(** A failure of the host's resolver, whose own [toString] puts the code
    after the name, as it arrives through [resolve]. *)
Example resolve_rewraps_host_failure :
  resolve
    (table_host []
       [("pkg/sub",
         inl {| name := "Error";
                message := "Package subpath './sub' is not defined by exports";
                code := Some "ERR_PACKAGE_PATH_NOT_EXPORTED";
                toString :=
                  Some "Error [ERR_PACKAGE_PATH_NOT_EXPORTED]: Package subpath './sub' is not defined by exports" |})])
    "pkg/sub" None empty_world =
  (Throw {| name := "Error";
            message :=
              "Error [ERR_PACKAGE_PATH_NOT_EXPORTED]: Package subpath './sub' is not defined by exports";
            code := Some "ERR_PACKAGE_PATH_NOT_EXPORTED";
            toString := None |},
   append_trace empty_world
     [EResolve "pkg/sub";
      EModuleResolve "pkg/sub" (URLObject "file:///work") ["node"; "import"]]).
Proof. reflexivity. Qed.

(** C5.  Let the host resolver fail with [e] at some attempt of a
    resolution, the attempts before it having soft-missed.  The failure is a
    soft miss exactly when its code is one of ERR_MODULE_NOT_FOUND,
    ERR_UNSUPPORTED_DIR_IMPORT and MODULE_NOT_FOUND; a soft miss is absorbed
    and the remaining candidates are tried; any other failure is thrown to
    the caller as it is, and the host resolver is not called again. *)
Theorem host_failure_absorbed_or_propagated host id opts o w k c e :
  test PROTOCOL_RE id = false ->
  id ∉ builtinModules host ->
  given_options w opts = Some o ->
  let from := effective_from host o in
  let conds := effective_conditions o in
  let attempts := id :: candidates id (effective_extensions o) in
  attempts !! k = Some c ->
  Forall (soft_miss host from conds) (take k attempts) ->
  moduleResolve host c from conds = inl e ->
  let w' := append_trace w (EResolve id :: map (attempt from conds) (take (S k) attempts)) in
  (has_code NOT_FOUND_ERRORS (code e) = true <->
     exists c', code e = Some c' /\ c' ∈ SOFT_MISS_CODES) /\
  (has_code NOT_FOUND_ERRORS (code e) = true ->
     resolveSync host id opts w =
     (let* resolved := try_list host (drop (S k) attempts) from conds in
      finish host id from resolved) w') /\
  (has_code NOT_FOUND_ERRORS (code e) = false ->
     resolveSync host id opts w = (Throw e, w')).
Proof.
  intros Hp Hb Ho from conds attempts Hk Hsoft He w'.
  split; [apply has_code_soft|].
  rewrite (resolveSync_failure_at host id opts o w k c e) by done.
  fold from conds attempts w'.
  split; intros ->; reflexivity.
Qed.

Lemma host_failure_absorbed_or_propagated_witness :
  let e := {| name := "Error";
              message := "Package subpath './sub' is not defined by exports";
              code := Some "ERR_PACKAGE_PATH_NOT_EXPORTED";
              toString :=
                Some "Error [ERR_PACKAGE_PATH_NOT_EXPORTED]: Package subpath './sub' is not defined by exports" |} in
  let host := table_host [] [("pkg/sub", inl e)] in
  moduleResolve host "pkg/sub" (DEFAULT_FROM host) DEFAULT_CONDITIONS_SET = inl e /\
  resolveSync host "pkg/sub" None empty_world =
    (Throw e,
     append_trace empty_world
       [EResolve "pkg/sub";
        EModuleResolve "pkg/sub" (URLObject "file:///work") ["node"; "import"]]).
Proof.
  intros e host. split; [reflexivity|].
  destruct (host_failure_absorbed_or_propagated host "pkg/sub" None no_options empty_world
              0 "pkg/sub" e) as (_ & _ & H).
  - reflexivity.
  - cbn. by intros ?%elem_of_nil.
  - reflexivity.
  - reflexivity.
  - constructor.
  - reflexivity.
  - rewrite H by (by vm_compute). reflexivity.
Defined.

(** ** Nothing found *)

Lemma try_list_all_miss host l from conds w :
  Forall (soft_miss host from conds) l ->
  try_list host l from conds w = (Normal None, append_trace w (map (attempt from conds) l)).
Proof.
  intros H. rewrite <- (app_nil_r l) at 1. rewrite try_list_skip by done. reflexivity.
Qed.

Lemma includes_intro pre sub post : includes sub (pre ++ sub ++ post).
Proof. by exists pre, post. Qed.

Lemma string_app_assoc (a b c : string) : (a ++ b) ++ c = a ++ b ++ c.
Proof.
  induction a as [|x a IH]; [done|].
  change (String x ((a ++ b) ++ c) = String x (a ++ b ++ c)). by rewrite IH.
Qed.

Lemma string_app_nil_r (a : string) : a ++ EmptyString = a.
Proof.
  induction a as [|x a IH]; [done|].
  change (String x (a ++ EmptyString) = String x a). by rewrite IH.
Qed.

(** C6.  When the literal specifier and every fallback candidate soft-miss,
    [resolveSync] throws and [resolve] rejects with an error whose code is
    ERR_MODULE_NOT_FOUND and whose message names the specifier and the base
    location that the attempts were made from. *)
Theorem not_found_after_all_misses host id opts o w :
  test PROTOCOL_RE id = false ->
  id ∉ builtinModules host ->
  given_options w opts = Some o ->
  let from := effective_from host o in
  let conds := effective_conditions o in
  let attempts := id :: candidates id (effective_extensions o) in
  Forall (soft_miss host from conds) attempts ->
  let w' := append_trace w (EResolve id :: map (attempt from conds) attempts) in
  let msg := "Cannot find module " ++ id ++ " imported from " ++ to_string from in
  resolveSync host id opts w =
    (Throw {| name := "Error"; message := msg; code := Some "ERR_MODULE_NOT_FOUND";
              toString := None |}, w') /\
  resolve host id opts w =
    (Throw {| name := "Error"; message := "Error: " ++ msg;
              code := Some "ERR_MODULE_NOT_FOUND"; toString := None |}, w') /\
  includes id msg /\ includes (to_string from) msg /\
  includes id ("Error: " ++ msg) /\ includes (to_string from) ("Error: " ++ msg).
Proof.
  intros Hp Hb Ho from conds attempts Hsoft w' msg.
  assert (resolveSync host id opts w = (Throw (not_found_error id from), w')) as H.
  { unfold resolveSync. rewrite (_resolve_run host id opts o) by done.
    fold from conds attempts. unfold bind. rewrite try_list_all_miss by done.
    by rewrite append_trace_app. }
  split; [exact H|]. split.
  { unfold resolve, _pcall. rewrite H. reflexivity. }
  split; [apply (includes_intro "Cannot find module ")|].
  split.
  { exists ("Cannot find module " ++ id ++ " imported from "), EmptyString.
    unfold msg. by rewrite string_app_nil_r, !string_app_assoc. }
  split; [apply (includes_intro "Error: Cannot find module ")|].
  exists ("Error: Cannot find module " ++ id ++ " imported from "), EmptyString.
  unfold msg. by rewrite string_app_nil_r, !string_app_assoc.
Qed.

Lemma not_found_after_all_misses_witness :
  let host := bare_host [] in
  Forall (soft_miss host (DEFAULT_FROM host) DEFAULT_CONDITIONS_SET)
         ("./gone" :: candidates "./gone" DEFAULT_EXTENSIONS) /\
  (resolve host "./gone" None empty_world).1 =
    Throw {| name := "Error";
             message := "Error: Cannot find module ./gone imported from file:///work";
             code := Some "ERR_MODULE_NOT_FOUND"; toString := None |}.
Proof.
  intros host.
  assert (Forall (soft_miss host (DEFAULT_FROM host) DEFAULT_CONDITIONS_SET)
                 ("./gone" :: candidates "./gone" DEFAULT_EXTENSIONS)) as Hall
    by (repeat constructor; soft_miss_here).
  split; [exact Hall|].
  destruct (not_found_after_all_misses host "./gone" None no_options empty_world)
    as (_ & H & _).
  - reflexivity.
  - cbn. by intros ?%elem_of_nil.
  - reflexivity.
  - exact Hall.
  - rewrite H. reflexivity.
Defined.


(** ** Resolution does not depend on the world *)

Lemma oblivious_ret {A} (a : A) : oblivious (ret a).
Proof. intros w. cbn. by rewrite append_trace_nil. Qed.

Lemma oblivious_throw {A} e : oblivious (@throw A e).
Proof. intros w. cbn. by rewrite append_trace_nil. Qed.

Lemma oblivious_lift {A} (r : JSError + A) : oblivious (lift r).
Proof. destruct r; [apply oblivious_throw | apply oblivious_ret]. Qed.

Lemma oblivious_log e : oblivious (log e).
Proof. intros w. reflexivity. Qed.

Lemma oblivious_bind {A B} (m : M A) (k : A -> M B) :
  oblivious m -> (forall a, oblivious (k a)) -> oblivious (bind m k).
Proof.
  intros Hm Hk w. unfold bind. rewrite (Hm w).
  destruct (m empty_world) as [[a|e|] w0]; cbn; [|done..].
  rewrite (Hk a (append_trace w (trace w0))), (Hk a w0). cbn.
  by rewrite append_trace_app.
Qed.

Lemma oblivious_pcall {A} (m : M A) : oblivious m -> oblivious (_pcall m).
Proof.
  intros Hm w. unfold _pcall. rewrite (Hm w).
  destruct (m empty_world) as [[a|e|] w0]; reflexivity.
Qed.

Lemma oblivious_tryModuleResolve host id from conds :
  oblivious (_tryModuleResolve host id from conds).
Proof.
  unfold _tryModuleResolve. apply oblivious_bind; [apply oblivious_log|]. intros _.
  destruct (moduleResolve host id from conds) as [e|u]; [|apply oblivious_ret].
  destruct (negb _); [apply oblivious_throw | apply oblivious_ret].
Qed.

Lemma oblivious_try_list host l from conds : oblivious (try_list host l from conds).
Proof.
  induction l as [|id l IH]; [apply oblivious_ret|].
  cbn. apply oblivious_bind; [apply oblivious_tryModuleResolve|].
  intros [u|]; [apply oblivious_ret | exact IH].
Qed.

Lemma oblivious_fileURLToPath host l : oblivious (fileURLToPath host l).
Proof.
  destruct l as [s|href]; cbn.
  - destruct (negb _); [apply oblivious_ret|].
    apply oblivious_bind; [apply oblivious_lift | intros; apply oblivious_ret].
  - apply oblivious_bind; [apply oblivious_lift | intros; apply oblivious_ret].
Qed.

Lemma oblivious_canonicalize host u : oblivious (canonicalize host u).
Proof.
  unfold canonicalize.
  apply oblivious_bind; [apply oblivious_fileURLToPath|]. intros path.
  apply oblivious_bind; [apply oblivious_log|]. intros _.
  apply oblivious_bind; [apply oblivious_lift | intros; apply oblivious_ret].
Qed.

Lemma oblivious_resolution host id o : oblivious (resolution host id o).
Proof.
  unfold resolution. destruct (test PROTOCOL_RE id); [apply oblivious_ret|].
  destruct (bool_decide _); [apply oblivious_ret|].
  apply oblivious_bind; [apply oblivious_try_list|].
  intros [u|]; [apply oblivious_canonicalize | apply oblivious_throw].
Qed.

Lemma _resolve_resolution host id opts o w :
  given_options w opts = Some o ->
  _resolve host id opts w = resolution host id o (append_trace w [EResolve id]).
Proof.
  intros Ho. unfold resolution.
  destruct (test PROTOCOL_RE id) eqn:Hp; [by rewrite _resolve_scheme|].
  destruct (bool_decide (id ∈ builtinModules host)) eqn:Hb.
  - apply bool_decide_eq_true_1 in Hb. unfold _resolve. rewrite bind_log, Hp.
    rewrite bool_decide_eq_true_2; [done|].
    unfold BUILTIN_MODULES. by apply elem_of_list_to_set.
  - apply bool_decide_eq_false_1 in Hb. by rewrite (_resolve_run host id opts o).
Qed.

(** [resolve] with known options: the outcome and the events are those of
    [resolve_outcome] and [resolve_events], and the heap is not touched. *)
Lemma resolve_given host id opts o w :
  given_options w opts = Some o ->
  resolve host id opts w =
  (resolve_outcome host id o, append_trace w (resolve_events host id o)).
Proof.
  intros Ho. unfold resolve, resolveSync, resolve_outcome, resolve_events.
  unfold _pcall at 1. rewrite (_resolve_resolution host id opts o) by done.
  rewrite (oblivious_resolution host id o (append_trace w [EResolve id])).
  rewrite append_trace_app. cbn [app].
  unfold _pcall. destruct (resolution host id o empty_world) as [[a|e|] w0]; reflexivity.
Qed.


Lemma resolution_modelled host id o w : (resolution host id o w).1 <> Unmodelled.
Proof.
  rewrite (oblivious_resolution host id o w). cbn.
  unfold resolution. destruct (test PROTOCOL_RE id); [done|].
  destruct (bool_decide _); [done|].
  unfold bind. destruct (try_list _ _ _ _ _) as [[[u|]|e|] w1] eqn:E; cbn; try done.
  - unfold canonicalize, bind, fileURLToPath, bind.
    destruct (url_fileURLToPath host (URLObject u)); cbn; [done|].
    destruct (realpathSync host _); done.
  - clear -E. exfalso. revert E. generalize empty_world.
    induction (id :: candidates id (effective_extensions o)) as [|i l IH]; intros w0; [done|].
    cbn. unfold bind. rewrite _tryModuleResolve_run.
    destruct (moduleResolve host i _ _) as [e|u']; [|done].
    destruct (has_code _ _); [apply IH | done].
Qed.

Lemma resolve_outcome_modelled host id o : resolve_outcome host id o <> Unmodelled.
Proof.
  unfold resolve_outcome, _pcall.
  pose proof (resolution_modelled host id o empty_world) as H.
  by destruct (resolution host id o empty_world) as [[a|e|] w0].
Qed.

(** ** Rewriting imports *)

Lemma Promise_all_resolve host ro o ids w :
  heap w !! ro = Some o ->
  Promise_all (map (fun id => let* u := resolve host id (Some ro) in ret (id, u)) ids) w =
  (settle_all (map (entry host o) ids),
   append_trace w (concat (map (fun id => resolve_events host id o) ids))).
Proof.
  revert w. induction ids as [|id ids IH]; intros w Hro.
  - cbn. by rewrite append_trace_nil.
  - cbn [map Promise_all concat settle_all]. unfold bind at 1.
    rewrite (resolve_given host id (Some ro) o) by done.
    rewrite <- append_trace_app.
    set (w1 := append_trace w (resolve_events host id o)).
    assert (heap w1 !! ro = Some o) as Hro1 by done.
    unfold entry at 1.
    destruct (resolve_outcome host id o) as [u|e|]; cbn -[Promise_all];
      rewrite (IH w1 Hro1); reflexivity.
Qed.

Lemma fresh_ref_unused (w : World) : heap w !! fresh (dom (heap w)) = None.
Proof. apply not_elem_of_dom, is_fresh. Qed.

(** [resolveImports] when the text has imports. *)
Lemma resolveImports_run host code r o w :
  heap w !! r = Some o ->
  uniqueImports code <> [] ->
  let ro := fresh (dom (heap w)) in
  let w1 := {| heap := <[ro := import_options o]> (heap w);
               trace := trace w ++ concat (map (fun id => resolve_events host id (import_options o))
                                               (uniqueImports code)) |} in
  resolveImports host code (Some r) w =
  match settle_all (map (entry host (import_options o)) (uniqueImports code)) with
  | Normal entries => substitute code (uniqueImports code) entries w1
  | Throw e => (Throw e, w1)
  | Unmodelled => (Unmodelled, w1)
  end.
Proof.
  intros Hr Hne ro w1. unfold resolveImports.
  rewrite bool_decide_eq_false_2
    by (intros E; apply Hne; unfold uniqueImports; by rewrite E).
  fold (uniqueImports code). unfold bind at 1. unfold read. rewrite Hr.
  unfold bind at 1. unfold alloc. cbn [fst snd heap trace]. fold ro.
  fold (import_options o). unfold bind at 1.
  rewrite (Promise_all_resolve host ro (import_options o))
    by (cbn; apply lookup_insert_eq).
  unfold append_trace. cbn [heap trace]. fold w1.
  destruct (settle_all _); reflexivity.
Qed.

Lemma resolveImports_no_imports host code opts w :
  uniqueImports code = [] -> resolveImports host code opts w = (Normal code, w).
Proof.
  intros E. unfold resolveImports.
  rewrite bool_decide_eq_true_2; [done|].
  unfold uniqueImports in E. by destruct (matchAll ESM_IMPORT_RE code).
Qed.


Lemma substitute_world code ids entries w :
  substitute code ids entries w = ((substitute code ids entries empty_world).1, w).
Proof.
  unfold substitute, bind, new_RegExp.
  destruct (compile _); reflexivity.
Qed.

Lemma resolveImports_given host code r o w :
  heap w !! r = Some o ->
  resolveImports host code (Some r) w =
  (rewrite_outcome host code o, rewrite_world host code o w).
Proof.
  intros Hr. unfold rewrite_outcome, rewrite_world.
  destruct (bool_decide (uniqueImports code = [])) eqn:E.
  - apply bool_decide_eq_true_1 in E. by apply resolveImports_no_imports.
  - apply bool_decide_eq_false_1 in E.
    rewrite (resolveImports_run host code r o) by done.
    fold (rewrite_events host code o).
    destruct (settle_all _); [|done..].
    by rewrite substitute_world.
Qed.

Lemma rewrite_world_heap host code o w r x :
  heap w !! r = Some x -> heap (rewrite_world host code o w) !! r = Some x.
Proof.
  intros Hr. unfold rewrite_world. destruct (bool_decide _); [done|]. cbn.
  rewrite lookup_insert_ne; [done|].
  intros <-. by rewrite fresh_ref_unused in Hr.
Qed.

Lemma rewrite_world_trace host code o w :
  trace (rewrite_world host code o w) = (trace w ++ rewrite_events host code o)%list.
Proof.
  unfold rewrite_world, rewrite_events.
  destruct (bool_decide (uniqueImports code = [])) eqn:E; [|done].
  apply bool_decide_eq_true_1 in E. rewrite E. cbn. by rewrite app_nil_r.
Qed.

(** [transformModule] on an options object. *)
Lemma transformModule_given host code r o w :
  heap w !! r = Some o ->
  transformModule host code (Some r) w =
  (transform_outcome host code o,
   rewrite_world host code (with_defaults o)
     {| heap := <[r := with_defaults o]> (heap w); trace := trace w |}).
Proof.
  intros Hr. unfold transformModule, transform_outcome.
  set (w0 := {| heap := <[r := with_defaults o]> (heap w); trace := trace w |}).
  unfold bind at 1. unfold read at 1. rewrite Hr.
  assert ((if negb (truthy (url o)) && truthy (from o)
           then write r {| from := from o; url := from o;
                           conditions := conditions o; extensions := extensions o |}
           else if truthy (url o) && negb (truthy (from o))
                then write r {| from := url o; url := url o;
                                conditions := conditions o; extensions := extensions o |}
                else ret tt) w = (Normal tt, w0)) as Hw.
  { unfold w0, with_defaults.
    destruct (negb (truthy (url o)) && truthy (from o)); [reflexivity|].
    destruct (truthy (url o) && negb (truthy (from o))); [reflexivity|].
    cbn. rewrite insert_id by done. by destruct w. }
  unfold bind at 1. rewrite Hw.
  assert (heap w0 !! r = Some (with_defaults o)) as Hr0 by (cbn; apply lookup_insert_eq).
  unfold bind at 1. rewrite (resolveImports_given host code r (with_defaults o)) by done.
  destruct (rewrite_outcome host code (with_defaults o)) as [code'|e|]; [|done..].
  unfold bind, read. rewrite (rewrite_world_heap _ _ _ _ r (with_defaults o)) by done.
  unfold rewrite_meta_url. destruct (url (with_defaults o)) as [u|]; [|done].
  by destruct (truthy (Some u)).
Qed.


(** ** A failed resolution aborts the rewrite *)

Lemma entry_modelled host o id : entry host o id <> Unmodelled.
Proof.
  unfold entry. pose proof (resolve_outcome_modelled host id o).
  by destruct (resolve_outcome host id o).
Qed.

Lemma settle_all_entries_modelled host o ids :
  settle_all (map (entry host o) ids) <> Unmodelled.
Proof.
  induction ids as [|id ids IH]; [done|]. cbn.
  pose proof (entry_modelled host o id).
  destruct (entry host o id); [|by destruct (settle_all _)|done].
  by destruct (settle_all _).
Qed.

Lemma settle_all_first_failure host o ids id e :
  first_failure host o ids id e ->
  settle_all (map (entry host o) ids) = Throw e.
Proof.
  intros (before & after & -> & Hbefore & Hid).
  induction Hbefore as [|i before (u & Hu) _ IH]; cbn.
  - pose proof (settle_all_entries_modelled host o after).
    unfold entry at 1. rewrite Hid. by destruct (settle_all _).
  - unfold entry at 1. rewrite Hu. by rewrite IH.
Qed.

Lemma first_failure_exists host o ids id e :
  id ∈ ids -> resolve_outcome host id o = Throw e ->
  exists id' e', first_failure host o ids id' e'.
Proof.
  intros Hin Hid. induction ids as [|i ids IH]; [by apply elem_of_nil in Hin|].
  destruct (resolve_outcome host i o) as [u|e'|] eqn:Hi.
  - apply elem_of_cons in Hin as [->|Hin]; [congruence|].
    destruct (IH Hin) as (id' & e' & before & after & -> & Hbefore & Hid').
    exists id', e', (i :: before), after. repeat split; [|done].
    constructor; [by exists u | done].
  - exists i, e', [], ids. repeat split; [constructor | done].
  - by apply resolve_outcome_modelled in Hi.
Qed.

Lemma first_failure_nonempty host o ids id e : first_failure host o ids id e -> ids <> [].
Proof. intros (before & after & -> & _). by destruct before. Qed.

Lemma rewrite_outcome_failure host code o id e :
  first_failure host (import_options o) (uniqueImports code) id e ->
  rewrite_outcome host code o = Throw e.
Proof.
  intros H. unfold rewrite_outcome.
  rewrite bool_decide_eq_false_2 by (by eapply first_failure_nonempty).
  by rewrite (settle_all_first_failure host _ _ id e).
Qed.

(** C7.  If the resolution of some specifier of the text fails, then
    [resolveImports] and [transformModule] reject, with the error of the
    first specifier whose resolution fails; they return no text.  (For
    [transformModule] the specifiers are resolved with the options it has
    completed.) *)
Theorem failed_resolution_aborts_rewrite host code r o w id e :
  heap w !! r = Some o ->
  id ∈ uniqueImports code ->
  (resolve_outcome host id (import_options o) = Throw e ->
   exists id' e',
     first_failure host (import_options o) (uniqueImports code) id' e' /\
     (resolveImports host code (Some r) w).1 = Throw e') /\
  (resolve_outcome host id (import_options (with_defaults o)) = Throw e ->
   exists id' e',
     first_failure host (import_options (with_defaults o)) (uniqueImports code) id' e' /\
     (transformModule host code (Some r) w).1 = Throw e').
Proof.
  intros Hr Hin. split; intros Hid.
  - destruct (first_failure_exists _ _ _ _ _ Hin Hid) as (id' & e' & Hfirst).
    exists id', e'. split; [done|].
    rewrite (resolveImports_given host code r o) by done.
    by apply rewrite_outcome_failure with id'.
  - destruct (first_failure_exists _ _ _ _ _ Hin Hid) as (id' & e' & Hfirst).
    exists id', e'. split; [done|].
    rewrite (transformModule_given host code r o) by done.
    cbn. unfold transform_outcome.
    by rewrite (rewrite_outcome_failure host code _ id' e').
Qed.


Lemma failed_resolution_aborts_rewrite_witness :
  let e := {| name := "Error";
              message :=
                "Error: Cannot find module ./missing imported from file:///work/src/main.mjs";
              code := Some "ERR_MODULE_NOT_FOUND"; toString := None |} in
  "./missing" ∈ uniqueImports broken_code /\
  resolve_outcome vue_host "./missing" (import_options (with_defaults main_options)) = Throw e /\
  exists id' e',
    first_failure vue_host (import_options (with_defaults main_options))
      (uniqueImports broken_code) id' e' /\
    (transformModule vue_host broken_code (Some 0) main_world).1 = Throw e'.
Proof.
  intros e.
  assert (uniqueImports broken_code = ["vue"; "./missing"]) as Hu by (by vm_compute).
  assert ("./missing" ∈ uniqueImports broken_code) as Hin
    by (rewrite Hu; apply list_elem_of_further, list_elem_of_here).
  assert (resolve_outcome vue_host "./missing" (import_options (with_defaults main_options))
          = Throw e) as He by (by vm_compute).
  split; [exact Hin|]. split; [exact He|].
  destruct (failed_resolution_aborts_rewrite vue_host broken_code 0 main_options main_world
              "./missing" e) as [_ H]; [reflexivity | exact Hin |].
  exact (H He).
Defined.

(** ** The origin of the imports *)

Lemma try_list_trace host l from conds w :
  exists n, (try_list host l from conds w).2 =
            append_trace w (map (attempt from conds) (take n l)).
Proof.
  revert w. induction l as [|id l IH]; intros w.
  - exists 0. cbn. by rewrite append_trace_nil.
  - cbn. unfold bind. rewrite _tryModuleResolve_run.
    destruct (moduleResolve host id from conds) as [e|u]; [|by exists 1].
    destruct (has_code _ _); [|by exists 1].
    destruct (IH (append_trace w [attempt from conds id])) as [n Hn].
    exists (S n). rewrite Hn. by rewrite append_trace_app.
Qed.

Lemma canonicalize_trace host u w :
  exists evs, (canonicalize host u w).2 = append_trace w evs /\ Forall is_realpath evs.
Proof.
  unfold canonicalize, bind, fileURLToPath, bind.
  destruct (url_fileURLToPath host (URLObject u)) as [e|path]; cbn.
  - exists []. by rewrite append_trace_nil.
  - exists [ERealpath (normalizeSlash path)]. split.
    + by destruct (realpathSync host _).
    + repeat constructor. by eexists.
Qed.

Lemma resolve_events_shape host id o :
  exists n evs,
    resolve_events host id o =
      EResolve id ::
        (map (attempt (effective_from host o) (effective_conditions o))
             (take n (id :: candidates id (effective_extensions o))) ++ evs)%list /\
    Forall is_realpath evs.
Proof.
  unfold resolve_events, resolution.
  destruct (test PROTOCOL_RE id); [by exists 0, []|].
  destruct (bool_decide _); [by exists 0, []|].
  unfold bind.
  destruct (try_list_trace host (id :: candidates id (effective_extensions o))
              (effective_from host o) (effective_conditions o) empty_world) as [n Hn].
  destruct (try_list _ _ _ _ _) as [[[u|]|e|] w1]; cbn [snd] in Hn; subst w1.
  - cbn [finish].
    destruct (canonicalize_trace host u
                (append_trace empty_world
                   (map (attempt (effective_from host o) (effective_conditions o))
                        (take n (id :: candidates id (effective_extensions o))))))
      as (evs & -> & Hevs).
    exists n, evs. by split.
  - exists n, []. split; [|done]. cbn [finish throw snd trace append_trace empty_world].
    by rewrite app_nil_r.
  - exists n, []. split; [|done]. cbn [snd trace append_trace empty_world].
    by rewrite app_nil_r.
  - exists n, []. split; [|done]. cbn [snd trace append_trace empty_world].
    by rewrite app_nil_r.
Qed.

Lemma resolve_events_from host id o :
  resolved_from (effective_from host o) (resolve_events host id o).
Proof.
  destruct (resolve_events_shape host id o) as (n & evs & -> & Hevs).
  constructor; [done|]. apply Forall_app. split.
  - apply Forall_forall. intros ev (c & -> & _)%list_elem_of_fmap i b conds [= _ <- _]. done.
  - eapply Forall_impl; [exact Hevs|]. by intros ev [path ->].
Qed.

Lemma rewrite_events_from host code o :
  resolved_from (effective_from host (import_options o)) (rewrite_events host code o).
Proof.
  unfold rewrite_events, resolved_from.
  induction (uniqueImports code) as [|id ids IH]; [constructor|].
  cbn [map concat]. apply Forall_app. split; [apply resolve_events_from | exact IH].
Qed.

(** C10.  When [transformModule] is given options with both [url] and
    [from] set, it adds the events of resolving the specifiers of the text,
    each with the options [from := url]; every call of the host resolver has
    the base [normalizeid(url)]; and a call with any other [from] ends in the
    same way with the same events. *)
Theorem imports_resolved_from_url host code r o w u f :
  heap w !! r = Some o ->
  url o = Some u -> truthy (Some u) = true ->
  from o = Some f -> truthy (Some f) = true ->
  trace (transformModule host code (Some r) w).2 =
    (trace w ++ concat (map (fun id => resolve_events host id (import_options o))
                            (uniqueImports code)))%list /\
  resolved_from (Str (normalizeid host u))
    (concat (map (fun id => resolve_events host id (import_options o)) (uniqueImports code))) /\
  forall f' w2 r2,
    truthy (Some f') = true ->
    heap w2 !! r2 = Some {| from := Some f'; url := url o;
                            conditions := conditions o; extensions := extensions o |} ->
    (transformModule host code (Some r2) w2).1 = (transformModule host code (Some r) w).1 /\
    trace (transformModule host code (Some r2) w2).2 =
      (trace w2 ++ concat (map (fun id => resolve_events host id (import_options o))
                               (uniqueImports code)))%list.
Proof.
  intros Hr Hu Htu Hf Htf.
  assert (forall o', url o' = url o -> truthy (from o') = true -> with_defaults o' = o') as Hwd.
  { intros o' Hu' Hf'. unfold with_defaults. rewrite Hu', Hu, Htu, Hf'. reflexivity. }
  assert (with_defaults o = o) as Ho by (apply Hwd; [done | by rewrite Hf]).
  split; [|split].
  - rewrite (transformModule_given host code r o) by done. cbn [snd].
    by rewrite rewrite_world_trace, Ho.
  - pose proof (rewrite_events_from host code o) as H.
    unfold effective_from, import_options in H. cbn [from] in H.
    rewrite Hu, Htu in H. exact H.
  - intros f' w2 r2 Hf' Hr2.
    set (o2 := {| from := Some f'; url := url o;
                  conditions := conditions o; extensions := extensions o |}) in *.
    assert (with_defaults o2 = o2) as Ho2 by (by apply Hwd).
    rewrite (transformModule_given host code r2 o2) by done.
    rewrite (transformModule_given host code r o) by done. cbn [fst snd].
    rewrite rewrite_world_trace. unfold transform_outcome. rewrite Ho, Ho2.
    done.
Qed.


Lemma imports_resolved_from_url_witness :
  heap (world_of both_options) !! 0 = Some both_options /\
  truthy (url both_options) = true /\ truthy (from both_options) = true /\
  resolved_from (Str "file:///work/src/main.mjs")
    (trace (transformModule vue_host router_code (Some 0) (world_of both_options)).2).
Proof.
  split; [reflexivity|]. split; [reflexivity|]. split; [reflexivity|].
  destruct (imports_resolved_from_url vue_host router_code 0 both_options
              (world_of both_options)
              (Str "file:///work/src/main.mjs") (Str "file:///elsewhere/entry.mjs"))
    as (Ht & Hfrom & _); try reflexivity.
  rewrite Ht. exact Hfrom.
Defined.

(** ** The options object of the caller *)

Lemma keeps_heap_oblivious {A} (m : M A) : oblivious m -> keeps_heap m.
Proof. intros H w. by rewrite (H w). Qed.

Lemma keeps_heap_bind {A B} (m : M A) (k : A -> M B) :
  keeps_heap m -> (forall a, keeps_heap (k a)) -> keeps_heap (bind m k).
Proof.
  intros Hm Hk w. unfold bind. pose proof (Hm w) as H.
  destruct (m w) as [[a|e|] w1]; cbn in *; [|done..].
  by rewrite Hk.
Qed.

Lemma keeps_heap_pcall {A} (m : M A) : keeps_heap m -> keeps_heap (_pcall m).
Proof.
  intros Hm w. unfold _pcall. pose proof (Hm w) as H.
  by destruct (m w) as [[a|e|] w1].
Qed.

Lemma keeps_heap_resolve_ host id opts : keeps_heap (_resolve host id opts).
Proof.
  intros w. destruct (given_options w opts) as [o|] eqn:Ho.
  - rewrite (_resolve_resolution host id opts o) by done.
    by rewrite (oblivious_resolution host id o).
  - destruct opts as [r|]; [|done]. cbn in Ho.
    unfold _resolve. rewrite bind_log.
    destruct (test PROTOCOL_RE id); [done|]. destruct (bool_decide _); [done|].
    unfold bind, options_of, read. cbn. by rewrite Ho.
Qed.

Lemma keeps_heap_resolve host id opts : keeps_heap (resolve host id opts).
Proof. apply keeps_heap_pcall, keeps_heap_resolve_. Qed.

Lemma keeps_heap_resolvePathSync host id opts : keeps_heap (resolvePathSync host id opts).
Proof.
  apply keeps_heap_bind; [apply keeps_heap_resolve_|].
  intros u. apply keeps_heap_oblivious, oblivious_fileURLToPath.
Qed.

Lemma keeps_heap_readModule host id opts : keeps_heap (readModule host id opts).
Proof.
  apply keeps_heap_bind; [apply keeps_heap_resolve|]. intros u.
  apply keeps_heap_oblivious.
  apply oblivious_bind; [apply oblivious_fileURLToPath|]. intros path.
  apply oblivious_bind; [apply oblivious_log|]. intros _.
  apply oblivious_bind; [apply oblivious_lift | intros; apply oblivious_ret].
Qed.

(** After [transformModule] the caller's object holds the completed
    options, and the other objects are as before. *)
Lemma transformModule_heap host code r o w :
  heap w !! r = Some o ->
  heap (transformModule host code (Some r) w).2 !! r = Some (with_defaults o) /\
  forall r' x, r' <> r -> heap w !! r' = Some x ->
               heap (transformModule host code (Some r) w).2 !! r' = Some x.
Proof.
  intros Hr. rewrite (transformModule_given host code r o) by done. cbn [snd]. split.
  - apply rewrite_world_heap. cbn. apply lookup_insert_eq.
  - intros r' x Hne Hr'. apply rewrite_world_heap. cbn. by rewrite lookup_insert_ne.
Qed.

Lemma evalModule_heap host code r w :
  heap (evalModule host code (Some r) w).2 = heap (transformModule host code (Some r) w).2.
Proof.
  unfold evalModule. unfold bind at 1. cbn [ret]. unfold bind at 1.
  destruct (transformModule host code (Some r) w) as [[c|e|] w1]; [|done..].
  rewrite bind_log. unfold lift. by destruct (dynamic_import host _).
Qed.

Lemma loadModule_heap host id r o w :
  heap w !! r = Some o -> heap (loadModule host id (Some r) w).2 !! r = Some o.
Proof.
  intros Hr. unfold loadModule. unfold bind at 1. cbn [ret].
  unfold bind at 1.
  pose proof (keeps_heap_readModule host id (Some r) w) as Hread.
  destruct (readModule host id (Some r) w) as [[m|e|] w1]; cbn [snd] in Hread;
    [|cbn [snd]; by rewrite Hread..].
  unfold bind at 1. unfold read. rewrite Hread, Hr.
  unfold bind at 1. unfold alloc. cbn [fst snd].
  set (r' := fresh (dom (heap w1))). set (o' := {| from := from o |}).
  set (w2 := {| heap := <[r' := o']> (heap w1); trace := trace w1 |}).
  assert (r <> r') as Hne.
  { intros ->. pose proof (fresh_ref_unused w1) as H. fold r' in H. congruence. }
  rewrite evalModule_heap.
  apply (transformModule_heap host m.2 r' o' w2).
  - cbn. apply lookup_insert_eq.
  - done.
  - cbn. rewrite lookup_insert_ne by done. by rewrite Hread.
Qed.

(** C3, as amended.  The resolution operations and [loadModule] leave the
    caller's options object as it is.  [transformModule] and [evalModule]
    complete it: when one of [url] and [from] is set and the other is not,
    the other is set to the same value; [conditions] and [extensions] are not
    changed, and neither is an object in which both or neither are set. *)
Theorem options_after_call host r o w :
  heap w !! r = Some o ->
  (forall id,
     heap (resolveSync host id (Some r) w).2 !! r = Some o /\
     heap (resolve host id (Some r) w).2 !! r = Some o /\
     heap (resolvePath host id (Some r) w).2 !! r = Some o /\
     heap (loadModule host id (Some r) w).2 !! r = Some o) /\
  (forall code,
     heap (transformModule host code (Some r) w).2 !! r = Some (with_defaults o) /\
     heap (evalModule host code (Some r) w).2 !! r = Some (with_defaults o)) /\
  conditions (with_defaults o) = conditions o /\
  extensions (with_defaults o) = extensions o /\
  (truthy (url o) = truthy (from o) -> with_defaults o = o) /\
  (truthy (url o) = false -> truthy (from o) = true ->
   with_defaults o = {| from := from o; url := from o;
                        conditions := conditions o; extensions := extensions o |}) /\
  (truthy (url o) = true -> truthy (from o) = false ->
   with_defaults o = {| from := url o; url := url o;
                        conditions := conditions o; extensions := extensions o |}).
Proof.
  intros Hr. split; [|split].
  - intros id. repeat split.
    + unfold resolveSync. by rewrite keeps_heap_resolve_.
    + by rewrite keeps_heap_resolve.
    + unfold resolvePath. by rewrite keeps_heap_pcall by apply keeps_heap_resolvePathSync.
    + by apply loadModule_heap.
  - intros code. split.
    + by apply transformModule_heap.
    + rewrite evalModule_heap. by apply transformModule_heap.
  - unfold with_defaults.
    destruct (truthy (url o)), (truthy (from o)); cbn; repeat split; try done.
Qed.

Lemma options_after_call_witness :
  heap (world_of from_options) !! 0 = Some from_options /\
  heap (resolve vue_host "vue" (Some 0) (world_of from_options)).2 !! 0 = Some from_options /\
  heap (transformModule vue_host router_code (Some 0) (world_of from_options)).2 !! 0 =
    Some {| from := Some (Str "file:///work/src/main.mjs");
            url := Some (Str "file:///work/src/main.mjs");
            conditions := None; extensions := None |}.
Proof.
  split; [reflexivity|].
  destruct (options_after_call vue_host 0 from_options (world_of from_options) eq_refl)
    as (Hres & Htr & _).
  split.
  - apply (Hres "vue").
  - apply (Htr router_code).
Defined.

(** C3, the counterexample: [transformModule], given options with [from]
    only, writes [url] into the caller's object. *)
Lemma transformModule_writes_options :
  heap (world_of from_options) !! 0 = Some from_options /\
  heap (transformModule vue_host "export const x = 1" (Some 0) (world_of from_options)).2 !! 0
  <> Some from_options.
Proof.
  split; [reflexivity|].
  destruct (transformModule_heap vue_host "export const x = 1" 0 from_options
              (world_of from_options) eq_refl) as [H _].
  rewrite H. discriminate.
Qed.


(** ** Substitution by a pattern made of the specifiers *)

(** C2.  The text that imports [vue] and then [vue-router] has two
    distinct specifiers, the first a proper part of the second.  The pattern
    that [resolveImports] builds from them, searched in the whole text, finds
    [vue] at the first import and again in the first three characters of the
    occurrence of [vue-router], and never [vue-router] itself.  So the
    result is exactly the text with the URL of [vue] at the first import and
    the URL of [vue] followed by [-router] at the second, where replacing
    every occurrence by the URL of its own specifier gives the URL of
    [vue-router] at the second: the two texts differ. *)
Theorem substring_specifier_rewritten_inside :
  heap main_world !! 0 = Some main_options /\
  all_matches ESM_IMPORT_RE
    (chars ("import Vue from 'vue'" ++ nl ++ "import Router from 'vue-router'")) =
    [(17, 20); (42, 52)] /\
  uniqueImports ("import Vue from 'vue'" ++ nl ++ "import Router from 'vue-router'") =
    ["vue"; "vue-router"] /\
  "vue-router" = "vue" ++ "-router" /\
  resolve_outcome vue_host "vue" (import_options main_options) =
    Normal "file:///work/node_modules/vue/index.mjs" /\
  resolve_outcome vue_host "vue-router" (import_options main_options) =
    Normal "file:///work/node_modules/vue-router/dist/vue-router.mjs" /\
  (exists re : node,
     compile "(vue)|(vue-router)" = Compiled re /\
     all_matches re
       (chars ("import Vue from 'vue'" ++ nl ++ "import Router from 'vue-router'")) =
       [(17, 20); (42, 45)]) /\
  (resolveImports vue_host
     ("import Vue from 'vue'" ++ nl ++ "import Router from 'vue-router'")
     (Some 0) main_world).1 =
    Normal ("import Vue from 'file:///work/node_modules/vue/index.mjs'" ++ nl ++
            "import Router from 'file:///work/node_modules/vue/index.mjs-router'") /\
  replace_occurrences
    ("import Vue from 'vue'" ++ nl ++ "import Router from 'vue-router'")
    {[ "vue" := "file:///work/node_modules/vue/index.mjs";
       "vue-router" := "file:///work/node_modules/vue-router/dist/vue-router.mjs" ]} =
    "import Vue from 'file:///work/node_modules/vue/index.mjs'" ++ nl ++
    "import Router from 'file:///work/node_modules/vue-router/dist/vue-router.mjs'" /\
  (resolveImports vue_host
     ("import Vue from 'vue'" ++ nl ++ "import Router from 'vue-router'")
     (Some 0) main_world).1 <>
    Normal (replace_occurrences
              ("import Vue from 'vue'" ++ nl ++ "import Router from 'vue-router'")
              {[ "vue" := "file:///work/node_modules/vue/index.mjs";
                 "vue-router" :=
                   "file:///work/node_modules/vue-router/dist/vue-router.mjs" ]}).
Proof.
  split; [reflexivity|]. split; [by vm_compute|]. split; [by vm_compute|].
  split; [reflexivity|]. split; [by vm_compute|]. split; [by vm_compute|].
  split.
  { destruct (compile "(vue)|(vue-router)") as [re| |] eqn:E;
      [|by vm_compute in E..].
    exists re. split; [reflexivity|].
    vm_compute in E. injection E as <-. by vm_compute. }
  split; [by vm_compute|]. split; [by vm_compute|].
  vm_compute. discriminate.
Qed.

(** What the substitution asked for yields on the same text. *)
Example replace_occurrences_router :
  replace_occurrences ("import Vue from 'vue'" ++ nl ++ "import Router from 'vue-router'")
    {[ "vue" := "file:///work/node_modules/vue/index.mjs";
       "vue-router" := "file:///work/node_modules/vue-router/dist/vue-router.mjs" ]}
  = "import Vue from 'file:///work/node_modules/vue/index.mjs'" ++ nl ++
    "import Router from 'file:///work/node_modules/vue-router/dist/vue-router.mjs'".
Proof. by vm_compute. Qed.

(** ** Duplicate specifiers *)

Lemma elem_of_new_Set x l : x ∈ new_Set l <-> x ∈ l.
Proof.
  induction l as [|y l IH]; [done|]. cbn.
  rewrite !elem_of_cons, list_elem_of_filter, IH.
  destruct (decide (x = y)); tauto.
Qed.

Lemma NoDup_new_Set l : NoDup (new_Set l).
Proof.
  induction l as [|y l IH]; cbn; constructor.
  - rewrite list_elem_of_filter. by intros [H _].
  - by apply NoDup_filter.
Qed.

Lemma resolve_calls_app id a b :
  resolve_calls id (a ++ b) = resolve_calls id a + resolve_calls id b.
Proof. unfold resolve_calls. by rewrite List.filter_app, length_app. Qed.

Lemma resolve_calls_cons id ev l :
  resolve_calls id (ev :: l) = (if is_resolve_of id ev then 1 else 0) + resolve_calls id l.
Proof. unfold resolve_calls. cbn. by destruct (is_resolve_of id ev). Qed.

Lemma resolve_calls_resolve_events host o id id' :
  resolve_calls id (resolve_events host id' o) = if bool_decide (id' = id) then 1 else 0.
Proof.
  destruct (resolve_events_shape host id' o) as (n & evs & -> & Hevs).
  assert (forall l : list Event,
            Forall (fun ev => is_resolve_of id ev = false) l -> resolve_calls id l = 0) as Hzero.
  { intros l Hl. unfold resolve_calls. induction Hl as [|ev l Hev _ IH]; [done|].
    cbn. by rewrite Hev. }
  rewrite resolve_calls_cons. cbn [is_resolve_of]. rewrite Hzero.
  - by destruct (bool_decide (id' = id)).
  - apply Forall_app. split.
    + apply Forall_forall. by intros ev (c & -> & _)%list_elem_of_fmap.
    + eapply Forall_impl; [exact Hevs|]. by intros ev [path ->].
Qed.

(** Every specifier of the text is resolved once, however often the text
    imports it. *)
Lemma rewrite_resolves_once host code o id :
  id ∈ matchAll ESM_IMPORT_RE code ->
  resolve_calls id (rewrite_events host code o) = 1.
Proof.
  intros Hin. apply elem_of_new_Set in Hin. fold (uniqueImports code) in Hin.
  unfold rewrite_events.
  pose proof (NoDup_new_Set (matchAll ESM_IMPORT_RE code)) as Hnd.
  fold (uniqueImports code) in Hnd.
  induction Hnd as [|i ids Hi Hnd IH]; [by apply elem_of_nil in Hin|].
  cbn [map concat]. rewrite resolve_calls_app, resolve_calls_resolve_events.
  apply elem_of_cons in Hin as [Heq|Hin].
  - subst i. rewrite bool_decide_eq_true_2 by done.
    assert (forall l, id ∉ l ->
              resolve_calls id
                (concat (map (fun id0 => resolve_events host id0 (import_options o)) l)) = 0)
      as Hzero.
    { induction l as [|j l IHl]; intros Hj; [done|].
      cbn [map concat]. rewrite resolve_calls_app, resolve_calls_resolve_events.
      rewrite bool_decide_eq_false_2 by (intros ->; apply Hj, list_elem_of_here).
      apply IHl. intros ?. apply Hj. by apply list_elem_of_further. }
    by rewrite Hzero.
  - rewrite bool_decide_eq_false_2 by (by intros ->). by rewrite IH.
Qed.

(** C8 at an input on which it fails.  The text imports [vue-router] twice
    and [vue] once.  The two specifiers are resolved once each, but both
    occurrences of [vue-router] are rewritten with the URL of [vue],
    followed by [-router], and not with the URL of [vue-router]. *)
Theorem duplicate_import_rewritten_with_other_url :
  matchAll ESM_IMPORT_RE router_code = ["vue"; "vue-router"; "vue-router"] /\
  uniqueImports router_code = ["vue"; "vue-router"] /\
  resolve_outcome vue_host "vue-router" (import_options main_options) =
    Normal "file:///work/node_modules/vue-router/dist/vue-router.mjs" /\
  resolve_calls "vue-router"
    (trace (resolveImports vue_host router_code (Some 0) main_world).2) = 1 /\
  (resolveImports vue_host router_code (Some 0) main_world).1 =
    Normal ("import Vue from 'file:///work/node_modules/vue/index.mjs'" ++ nl ++
            "import Router from 'file:///work/node_modules/vue/index.mjs-router'" ++ nl ++
            "import { createRouter } from 'file:///work/node_modules/vue/index.mjs-router'") /\
  (resolveImports vue_host router_code (Some 0) main_world).1 <>
    Normal ("import Vue from 'file:///work/node_modules/vue/index.mjs'" ++ nl ++
            "import Router from 'file:///work/node_modules/vue-router/dist/vue-router.mjs'" ++ nl ++
            "import { createRouter } from 'file:///work/node_modules/vue-router/dist/vue-router.mjs'").
Proof.
  split; [by vm_compute|]. split; [by vm_compute|]. split; [by vm_compute|].
  split; [by vm_compute|]. split; [by vm_compute|].
  vm_compute. discriminate.
Qed.

(** * Further properties of the module *)

(** ** Resolution: the first attempt, and what follows a hit *)

Lemma resolveSync_world host id opts o w :
  given_options w opts = Some o ->
  (resolveSync host id opts w).2 = append_trace w (resolve_events host id o).
Proof.
  intros Ho. unfold resolveSync. rewrite (_resolve_resolution host id opts o) by done.
  rewrite (oblivious_resolution host id o). cbn [snd]. by rewrite append_trace_app.
Qed.

Lemma canonicalize_run host u w :
  canonicalize host u w =
  match url_fileURLToPath host (URLObject u) with
  | inl e => (Throw e, w)
  | inr p =>
      (match realpathSync host (normalizeSlash p) with
       | inl e => Throw e
       | inr realPath => Normal (pathToFileURL host realPath)
       end, append_trace w [ERealpath (normalizeSlash p)])
  end.
Proof.
  unfold canonicalize, bind, fileURLToPath, bind.
  destruct (url_fileURLToPath host (URLObject u)) as [e|p]; [done|]. cbn.
  by destruct (realpathSync host (normalizeSlash p)).
Qed.

(** X1.  When the host resolves the specifier as it is written, no
    fallback candidate is tried: the host resolver is called once, and the
    result is the file URL of the real path of what it found. *)
Theorem literal_hit_skips_fallback host id opts o w u p realPath :
  test PROTOCOL_RE id = false ->
  id ∉ builtinModules host ->
  given_options w opts = Some o ->
  moduleResolve host id (effective_from host o) (effective_conditions o) = inr u ->
  url_fileURLToPath host (URLObject u) = inr p ->
  realpathSync host (normalizeSlash p) = inr realPath ->
  resolveSync host id opts w =
  (Normal (pathToFileURL host realPath),
   append_trace w [EResolve id;
                   EModuleResolve id (effective_from host o) (effective_conditions o);
                   ERealpath (normalizeSlash p)]).
Proof.
  intros Hp Hb Ho Hu Hpath Hreal. unfold resolveSync.
  rewrite (_resolve_run host id opts o) by done.
  unfold bind. cbn [try_list]. unfold bind.
  rewrite _tryModuleResolve_run, Hu. unfold ret. cbv beta iota.
  rewrite canonicalize_run, Hpath, Hreal.
  by rewrite !append_trace_app.
Qed.

Lemma literal_hit_skips_fallback_witness :
  resolveSync vue_host "vue" None empty_world =
  (Normal "file:///work/node_modules/vue/index.mjs",
   append_trace empty_world
     [EResolve "vue";
      EModuleResolve "vue" (URLObject "file:///work") ["node"; "import"];
      ERealpath "/work/node_modules/vue/index.mjs"]).
Proof.
  apply (literal_hit_skips_fallback vue_host "vue" None no_options empty_world
           "file:///work/node_modules/vue/index.mjs" "/work/node_modules/vue/index.mjs"
           "/work/node_modules/vue/index.mjs"); try reflexivity.
  cbn. rewrite !elem_of_cons, elem_of_nil. by intros [|[|]].
Defined.

(** X2.  Once the host has resolved an attempt, a failure of the
    conversion to a path or of the real-path lookup is thrown as it is: it
    is not taken for a miss, and no further candidate is tried. *)
Theorem canonicalization_failure_propagates host id opts o w k c u e :
  test PROTOCOL_RE id = false ->
  id ∉ builtinModules host ->
  given_options w opts = Some o ->
  let from := effective_from host o in
  let conds := effective_conditions o in
  let attempts := id :: candidates id (effective_extensions o) in
  attempts !! k = Some c ->
  Forall (soft_miss host from conds) (take k attempts) ->
  moduleResolve host c from conds = inr u ->
  let w' := append_trace w (EResolve id :: map (attempt from conds) (take (S k) attempts)) in
  (url_fileURLToPath host (URLObject u) = inl e ->
   resolveSync host id opts w = (Throw e, w')) /\
  (forall p, url_fileURLToPath host (URLObject u) = inr p ->
             realpathSync host (normalizeSlash p) = inl e ->
             resolveSync host id opts w =
             (Throw e, append_trace w' [ERealpath (normalizeSlash p)])).
Proof.
  intros Hp Hb Ho from conds attempts Hk Hsoft Hu w'.
  assert (resolveSync host id opts w = canonicalize host u w') as H.
  { unfold resolveSync. rewrite (_resolve_skip host id opts o w k c) by done.
    fold from conds attempts. unfold bind. cbn [try_list]. unfold bind.
    rewrite _tryModuleResolve_run, Hu, append_trace_app. unfold ret. cbv beta iota.
    cbn [finish].
    unfold w'. do 2 f_equal. cbn [app]. f_equal.
    rewrite (take_S_r _ _ c) by done. by rewrite map_app. }
  rewrite H, canonicalize_run. split.
  - by intros ->.
  - by intros p -> ->.
Qed.

(** X3.  An empty list of extensions switches the fallback off: after a
    soft miss of the specifier as written the resolution fails at once with
    the not-found error, the host resolver having been called once. *)
Theorem empty_extensions_no_fallback host id opts o w :
  test PROTOCOL_RE id = false ->
  id ∉ builtinModules host ->
  given_options w opts = Some o ->
  extensions o = Some [] ->
  soft_miss host (effective_from host o) (effective_conditions o) id ->
  resolveSync host id opts w =
  (Throw (not_found_error id (effective_from host o)),
   append_trace w [EResolve id;
                   EModuleResolve id (effective_from host o) (effective_conditions o)]).
Proof.
  intros Hp Hb Ho He Hsoft. unfold resolveSync.
  rewrite (_resolve_run host id opts o) by done.
  unfold effective_extensions. rewrite He. cbn [default candidates flat_map map app].
  unfold bind. rewrite try_list_all_miss by (by repeat constructor).
  by rewrite append_trace_app.
Qed.

Lemma host_resolver_calls_app a b :
  host_resolver_calls (a ++ b) = host_resolver_calls a + host_resolver_calls b.
Proof. unfold host_resolver_calls. by rewrite List.filter_app, length_app. Qed.

Lemma host_resolver_calls_attempts from conds l :
  host_resolver_calls (map (attempt from conds) l) = length l.
Proof.
  unfold host_resolver_calls. induction l as [|c l IH]; [done|]. cbn. by rewrite IH.
Qed.

Lemma host_resolver_calls_realpath evs :
  Forall is_realpath evs -> host_resolver_calls evs = 0.
Proof.
  unfold host_resolver_calls. intros H.
  induction H as [|ev evs [path Hev] _ IH]; [reflexivity|]. subst ev. exact IH.
Qed.

Lemma length_candidates id exts : length (candidates id exts) = 2 * length exts.
Proof. rewrite candidates_order, length_app, !length_map. lia. Qed.

(** X4.  One resolution calls the host resolver at most once for the
    specifier as written and twice for every extension: nine times with the
    default extensions. *)
Theorem host_resolver_calls_bounded host id opts o w :
  given_options w opts = Some o ->
  exists evs,
    (resolveSync host id opts w).2 = append_trace w evs /\
    host_resolver_calls evs <= 1 + 2 * length (effective_extensions o) /\
    (extensions o = None -> host_resolver_calls evs <= 9).
Proof.
  intros Ho. exists (resolve_events host id o).
  split; [by apply resolveSync_world|].
  destruct (resolve_events_shape host id o) as (n & evs & -> & Hevs).
  assert (host_resolver_calls
            (EResolve id ::
               (map (attempt (effective_from host o) (effective_conditions o))
                    (take n (id :: candidates id (effective_extensions o))) ++ evs)%list)
          <= 1 + 2 * length (effective_extensions o)) as Hbound.
  { change (EResolve id :: ?l) with ([EResolve id] ++ l)%list.
    rewrite !host_resolver_calls_app, host_resolver_calls_attempts.
    rewrite (host_resolver_calls_realpath evs) by done.
    rewrite length_take. cbn [length]. rewrite length_candidates.
    unfold host_resolver_calls. cbn. lia. }
  split; [exact Hbound|].
  intros He. etransitivity; [exact Hbound|].
  unfold effective_extensions. rewrite He. cbn. lia.
Qed.

Lemma host_resolver_calls_bounded_witness :
  exists evs,
    (resolveSync (bare_host []) "./gone" None empty_world).2 = append_trace empty_world evs /\
    host_resolver_calls evs <= 9.
Proof.
  destruct (host_resolver_calls_bounded (bare_host []) "./gone" None no_options empty_world
              eq_refl) as (evs & H & _ & Hb).
  exists evs. split; [exact H | by apply Hb].
Defined.

(** X5.  Nothing is cached: resolving the same specifier again ends in the
    same way and calls the host again, with the same calls. *)
Theorem resolve_again_repeats_calls host id opts o w :
  given_options w opts = Some o ->
  let first := resolve host id opts w in
  resolve host id opts first.2 =
  (first.1, append_trace w (resolve_events host id o ++ resolve_events host id o)).
Proof.
  intros Ho first. unfold first.
  rewrite (resolve_given host id opts o w) by done. cbn [fst snd].
  rewrite (resolve_given host id opts o).
  - by rewrite append_trace_app.
  - by destruct opts.
Qed.

Lemma resolve_again_repeats_calls_witness :
  trace (resolve vue_host "vue" None (resolve vue_host "vue" None empty_world).2).2 =
  [EResolve "vue";
   EModuleResolve "vue" (URLObject "file:///work") ["node"; "import"];
   ERealpath "/work/node_modules/vue/index.mjs";
   EResolve "vue";
   EModuleResolve "vue" (URLObject "file:///work") ["node"; "import"];
   ERealpath "/work/node_modules/vue/index.mjs"].
Proof.
  pose proof (resolve_again_repeats_calls vue_host "vue" None no_options empty_world eq_refl)
    as H.
  cbn zeta in H. rewrite H. reflexivity.
Defined.

Lemma canonicalization_failure_propagates_witness :
  resolveSync dangling_link_host "./link.mjs" None empty_world =
  (Throw (ENOENT "/work/link.mjs"),
   append_trace empty_world
     [EResolve "./link.mjs";
      EModuleResolve "./link.mjs" (URLObject "file:///work") ["node"; "import"];
      ERealpath "/work/link.mjs"]).
Proof.
  assert ("./link.mjs" ∉ builtinModules dangling_link_host) as Hb
    by (cbn; by intros ?%elem_of_nil).
  destruct (canonicalization_failure_propagates dangling_link_host "./link.mjs" None
              no_options empty_world 0 "./link.mjs" "file:///work/link.mjs"
              (ENOENT "/work/link.mjs") eq_refl Hb eq_refl eq_refl (List.Forall_nil _) eq_refl)
    as [_ H].
  exact (H "/work/link.mjs" eq_refl eq_refl).
Defined.

Lemma empty_extensions_no_fallback_witness :
  resolveSync (bare_host []) "./gone" (Some 0) (world_of no_extensions) =
  (Throw {| name := "Error";
            message := "Cannot find module ./gone imported from file:///work";
            code := Some "ERR_MODULE_NOT_FOUND"; toString := None |},
   append_trace (world_of no_extensions)
     [EResolve "./gone";
      EModuleResolve "./gone" (URLObject "file:///work") ["node"; "import"]]).
Proof.
  assert ("./gone" ∉ builtinModules (bare_host [])) as Hb
    by (cbn; by intros ?%elem_of_nil).
  assert (soft_miss (bare_host []) (DEFAULT_FROM (bare_host [])) DEFAULT_CONDITIONS_SET
            "./gone") as Hsoft by soft_miss_here.
  exact (empty_extensions_no_fallback (bare_host []) "./gone" (Some 0) no_extensions
           (world_of no_extensions) eq_refl Hb eq_refl eq_refl Hsoft).
Defined.

(** ** Paths *)

(** X6.  For a specifier that is returned as an identifier (one with a
    passed scheme that does not start with [file://], or a builtin), the
    path operations return that identifier, backslashes turned into
    slashes: no path is computed, and the host is not called. *)
Theorem resolvePath_of_identifier host id opts w :
  ((exists scheme, scheme ∈ PASSED_SCHEMES /\ includes scheme id) /\
   String.prefix "file://" id = false) \/
  (test PROTOCOL_RE id = false /\ id ∈ builtinModules host) ->
  let identifier := if test PROTOCOL_RE id then id else "node:" ++ id in
  resolvePathSync host id opts w =
    (Normal (normalizeSlash identifier), append_trace w [EResolve id]) /\
  resolvePath host id opts w =
    (Normal (normalizeSlash identifier), append_trace w [EResolve id]).
Proof.
  intros H identifier.
  assert (resolvePathSync host id opts w =
          (Normal (normalizeSlash identifier), append_trace w [EResolve id])) as Hsync.
  { unfold resolvePathSync, resolveSync, bind, identifier.
    destruct H as [[Hs%test_PROTOCOL_RE Hf] | [Hp Hb]].
    - rewrite _resolve_scheme by done. rewrite Hs. cbn [fileURLToPath]. by rewrite Hf.
    - unfold _resolve. rewrite bind_log, Hp.
      rewrite bool_decide_eq_true_2
        by (unfold BUILTIN_MODULES; by apply elem_of_list_to_set).
      reflexivity. }
  split; [exact Hsync|]. unfold resolvePath, _pcall. by rewrite Hsync.
Qed.

Lemma resolvePath_of_identifier_witness :
  resolvePath vue_host "fs" None empty_world =
  (Normal "node:fs", append_trace empty_world [EResolve "fs"]).
Proof.
  destruct (resolvePath_of_identifier vue_host "fs" None empty_world) as [_ H].
  - right. split; [reflexivity|]. cbn. apply list_elem_of_here.
  - exact H.
Defined.

(** ** The bound resolver *)

(** X7.  The resolver that [createResolve] returns resolves with a copy of
    its defaults in which [from] is the argument, or the default [from] when
    the argument is missing or empty; the defaults object is left as it
    is. *)
Theorem createResolve_resolves_with_copy host d defaults id from' w :
  heap w !! d = Some defaults ->
  let o := {| from := if truthy from' then from' else from defaults;
              url := url defaults; conditions := conditions defaults;
              extensions := extensions defaults |} in
  (createResolve host d id from' w).1 = resolve_outcome host id o /\
  trace (createResolve host d id from' w).2 = (trace w ++ resolve_events host id o)%list /\
  heap (createResolve host d id from' w).2 !! d = Some defaults.
Proof.
  intros Hd o. unfold createResolve, bind, read. rewrite Hd. unfold alloc. cbn [fst snd].
  fold o.
  set (w1 := {| heap := <[fresh (dom (heap w)) := o]> (heap w); trace := trace w |}).
  rewrite (resolve_given host id (Some (fresh (dom (heap w)))) o w1)
    by (cbn; apply lookup_insert_eq).
  repeat split. cbn. rewrite lookup_insert_ne; [done|].
  intros E. pose proof (fresh_ref_unused w) as H. rewrite E in H. congruence.
Qed.

Lemma createResolve_resolves_with_copy_witness :
  heap (createResolve vue_host 0 "vue" None (world_of both_options)).2 !! 0
  = Some both_options /\
  (createResolve vue_host 0 "vue" None (world_of both_options)).1
  = Normal "file:///work/node_modules/vue/index.mjs".
Proof.
  destruct (createResolve_resolves_with_copy vue_host 0 both_options "vue" None
              (world_of both_options) eq_refl) as (Hout & _ & Hheap).
  split; [exact Hheap|]. rewrite Hout. reflexivity.
Defined.

(** ** Reading, evaluating and loading *)

Lemma resolve_events_kinds host id o :
  Forall (fun ev => is_import ev = false /\ is_readFile ev = false) (resolve_events host id o).
Proof.
  destruct (resolve_events_shape host id o) as (n & evs & -> & Hevs).
  constructor; [done|]. apply Forall_app. split.
  - apply Forall_forall. by intros ev (c & -> & _)%list_elem_of_fmap.
  - eapply Forall_impl; [exact Hevs|]. by intros ev [path ->].
Qed.

Lemma rewrite_events_kinds host code o :
  Forall (fun ev => is_import ev = false /\ is_readFile ev = false) (rewrite_events host code o).
Proof.
  unfold rewrite_events. induction (uniqueImports code) as [|id ids IH]; [constructor|].
  cbn [map concat]. apply Forall_app. split; [apply resolve_events_kinds | exact IH].
Qed.

Lemma filter_none {A} (p : A -> bool) l :
  Forall (fun x => p x = false) l -> List.filter p l = [].
Proof. induction 1 as [|x l Hx _ IH]; [done|]. cbn. by rewrite Hx. Qed.

(** X8.  [readModule] reads the file after the specifier has resolved, at
    the path of the resolved URL, and answers with that URL and the text;
    when the resolution fails nothing is read.  When the result is no
    [file://] URL (a builtin, or a specifier with a passed scheme) the path
    that is read is the identifier itself. *)
Theorem readModule_reads_after_resolution host id opts o w :
  given_options w opts = Some o ->
  let w1 := append_trace w (resolve_events host id o) in
  List.filter is_readFile (resolve_events host id o) = [] /\
  (forall e, resolve_outcome host id o = Throw e ->
             readModule host id opts w = (Throw e, w1)) /\
  (forall u path,
     resolve_outcome host id o = Normal u ->
     (String.prefix "file://" u = false /\ path = u \/
      String.prefix "file://" u = true /\ url_fileURLToPath host (Str u) = inr path) ->
     readModule host id opts w =
     (match readFile host (normalizeSlash path) with
      | inr code => Normal (u, code)
      | inl e => Throw e
      end, append_trace w1 [EReadFile (normalizeSlash path)])).
Proof.
  intros Ho w1. split; [|split].
  - apply filter_none. eapply Forall_impl; [apply resolve_events_kinds|]. by intros ev [_ H].
  - intros e He. unfold readModule, bind.
    by rewrite (resolve_given host id opts o), He.
  - intros u path Hu Hpath. unfold readModule. unfold bind at 1.
    rewrite (resolve_given host id opts o), Hu by done. fold w1.
    assert (fileURLToPath host (Str u) w1 = (Normal (normalizeSlash path), w1)) as Hf.
    { cbn [fileURLToPath]. destruct Hpath as [[-> ->] | [-> Hp]]; [done|].
      unfold bind, lift. by rewrite Hp. }
    unfold bind at 1. rewrite Hf, bind_log. unfold bind, lift.
    by destruct (readFile host (normalizeSlash path)).
Qed.

Lemma readModule_reads_after_resolution_witness :
  readModule vue_host "fs" None empty_world =
  (Throw (not_found "node:fs"),
   append_trace empty_world [EResolve "fs"; EReadFile "node:fs"]).
Proof.
  destruct (readModule_reads_after_resolution vue_host "fs" None no_options empty_world
              eq_refl) as (_ & _ & H).
  exact (H "node:fs" "node:fs" eq_refl (or_introl (conj eq_refl eq_refl))).
Defined.

Lemma import_base_effective host o :
  effective_from host (import_options (with_defaults o)) = import_base host o.
Proof.
  unfold import_base, with_defaults, effective_from, import_options.
  destruct (truthy (url o)) eqn:Hu, (truthy (from o)) eqn:Hf; cbn; by rewrite ?Hu, ?Hf.
Qed.

(** X9.  [transformModule] resolves the imports of the text from [url], or
    else from [from], or else from the working directory: these are the
    events it adds, and every call of the host resolver among them has that
    base. *)
Theorem transformModule_import_base host code r o w :
  heap w !! r = Some o ->
  trace (transformModule host code (Some r) w).2 =
    (trace w ++ rewrite_events host code (with_defaults o))%list /\
  resolved_from (import_base host o) (rewrite_events host code (with_defaults o)) /\
  (truthy (url o) = false -> truthy (from o) = false ->
   import_base host o = URLObject (cwd_url host)) /\
  (forall f, truthy (url o) = false -> from o = Some f -> truthy (Some f) = true ->
             import_base host o = Str (normalizeid host f)).
Proof.
  intros Hr. split; [|split; [|split]].
  - rewrite (transformModule_given host code r o) by done. cbn [snd].
    by rewrite rewrite_world_trace.
  - rewrite <- import_base_effective. apply rewrite_events_from.
  - intros Hu Hf. unfold import_base. by rewrite Hu, Hf.
  - intros f Hu Hf Htf. unfold import_base. rewrite Hu, Hf, Htf. reflexivity.
Qed.

Lemma transformModule_import_base_witness :
  resolved_from (Str "file:///work/src/main.mjs")
    (trace (transformModule vue_host router_code (Some 0) (world_of from_options)).2).
Proof.
  destruct (transformModule_import_base vue_host router_code 0 from_options
              (world_of from_options) eq_refl) as (Ht & Hfrom & _ & Hbase).
  rewrite Ht. cbn [trace world_of app].
  rewrite (Hbase (Str "file:///work/src/main.mjs") eq_refl eq_refl eq_refl) in Hfrom.
  exact Hfrom.
Defined.

Lemma evalModule_given host code r o w :
  heap w !! r = Some o ->
  evalModule host code (Some r) w =
  (eval_outcome host code o,
   {| heap := heap (transformModule host code (Some r) w).2;
      trace := trace w ++ eval_events host code o |}).
Proof.
  intros Hr. unfold evalModule. unfold bind at 1. cbn [ret]. unfold bind at 1.
  unfold eval_outcome, eval_events.
  rewrite (transformModule_given host code r o) by done. cbn [snd].
  set (w1 := rewrite_world host code (with_defaults o) _).
  assert (trace w1 = (trace w ++ rewrite_events host code (with_defaults o))%list) as Ht
    by (unfold w1; by rewrite rewrite_world_trace).
  destruct (transform_outcome host code o) as [t|e|].
  - rewrite bind_log. unfold lift, append_trace. cbn [heap trace].
    rewrite Ht, <- app_assoc. by destruct (dynamic_import host (toDataURL host t)).
  - rewrite app_nil_r, <- Ht. by destruct w1.
  - rewrite app_nil_r, <- Ht. by destruct w1.
Qed.

(** X10.  [evalModule] imports once, the data URL of the transformed text,
    and answers with what the import yields; when the transformation fails
    it imports nothing and fails in the same way. *)
Theorem evalModule_imports_transformed host code r o w :
  heap w !! r = Some o ->
  let run := evalModule host code (Some r) w in
  exists evs,
    trace run.2 = (trace w ++ evs)%list /\
    match transform_outcome host code o with
    | Normal transformed =>
        run.1 = match dynamic_import host ("data:text/javascript;base64," ++
                                           base64 host transformed) with
                | inr m => Normal m
                | inl e => Throw e
                end /\
        List.filter is_import evs =
          [EImport ("data:text/javascript;base64," ++ base64 host transformed)]
    | Throw e => run.1 = Throw e /\ List.filter is_import evs = []
    | Unmodelled => run.1 = Unmodelled /\ List.filter is_import evs = []
    end.
Proof.
  intros Hr run. exists (eval_events host code o). unfold run.
  rewrite (evalModule_given host code r o) by done. cbn [fst snd trace].
  split; [done|].
  assert (List.filter is_import (rewrite_events host code (with_defaults o)) = []) as Hnone.
  { apply filter_none. eapply Forall_impl; [apply rewrite_events_kinds|]. by intros ev [H _]. }
  unfold eval_outcome, eval_events.
  destruct (transform_outcome host code o) as [t|e|];
    rewrite List.filter_app, Hnone; by split.
Qed.

Lemma evalModule_imports_transformed_witness :
  List.filter is_import
    (trace (evalModule vue_host broken_code (Some 0) main_world).2) = [] /\
  List.filter is_import
    (trace (evalModule vue_host "import Vue from 'vue'" (Some 0) main_world).2) =
  [EImport ("data:text/javascript;base64," ++
            "import Vue from 'file:///work/node_modules/vue/index.mjs'")].
Proof.
  split.
  - destruct (evalModule_imports_transformed vue_host broken_code 0 main_options main_world
                eq_refl) as (evs & Ht & H).
    rewrite Ht. cbn [trace main_world app].
    assert (transform_outcome vue_host broken_code main_options =
            Throw {| name := "Error";
                     message := "Error: Cannot find module ./missing imported from file:///work/src/main.mjs";
                     code := Some "ERR_MODULE_NOT_FOUND"; toString := None |}) as E by (by vm_compute).
    rewrite E in H. by destruct H.
  - destruct (evalModule_imports_transformed vue_host "import Vue from 'vue'" 0 main_options
                main_world eq_refl) as (evs & Ht & H).
    rewrite Ht. cbn [trace main_world app].
    assert (transform_outcome vue_host "import Vue from 'vue'" main_options =
            Normal "import Vue from 'file:///work/node_modules/vue/index.mjs'") as E
      by (by vm_compute).
    rewrite E in H. by destruct H.
Defined.



(** ** Texts that need no rewriting, and calls without options *)

Lemma find_from_None r l fuel start :
  (forall i, start <= i < start + fuel -> ends r l i = []) ->
  find_from r l fuel start = None.
Proof.
  intros H. destruct (find_from r l fuel start) as [m|] eqn:E; [|done].
  assert (is_Some (find_from r l fuel start)) as Hs by (by rewrite E).
  apply find_from_is_Some in Hs as (i & Hi & Hne). by rewrite H in Hne.
Qed.

Lemma all_matches_nil r l :
  (forall i, ends r l i = []) -> all_matches r l = [].
Proof.
  intros H. unfold all_matches. cbn [matches_from]. unfold exec.
  by rewrite find_from_None.
Qed.

Lemma replace_with_no_match r s f :
  all_matches r (chars s) = [] -> replace_with r s f = s.
Proof. intros H. unfold replace_with. rewrite H. cbn. apply str_chars. Qed.

Lemma IMPORT_META_URL_RE_lit :
  IMPORT_META_URL_RE =
  lit "i" ["m"; "p"; "o"; "r"; "t"; "."; "m"; "e"; "t"; "a"; "."; "u"; "r"; "l"]%char.
Proof. reflexivity. Qed.

Lemma no_import_meta_url code :
  ~ includes "import.meta.url" code ->
  all_matches IMPORT_META_URL_RE (chars code) = [].
Proof.
  intros H. apply all_matches_nil. intros i. rewrite IMPORT_META_URL_RE_lit, ends_lit.
  rewrite decide_False; [done|]. intros Hp. apply H, includes_chars.
  destruct (decide (i <= length (chars code))) as [Hi|Hi]; [by exists i|].
  rewrite drop_ge in Hp by lia. by apply prefix_nil_not in Hp.
Qed.

Lemma includes_test c cs sub s :
  chars sub = c :: cs -> (includes sub s <-> test (lit c cs) s = true).
Proof.
  intros Hsub. rewrite includes_chars, test_true, Hsub.
  split; intros (i & Hi & H); exists i; (split; [done|]).
  - rewrite ends_lit. by rewrite decide_True.
  - rewrite ends_lit in H. by case_decide.
Qed.

(** X12.  A text in which the extractor finds no specifier and which does
    not contain [import.meta.url] is returned by [transformModule] as it is,
    without any call of the host, whatever the options. *)
Theorem transformModule_identity host code r o w :
  heap w !! r = Some o ->
  matchAll ESM_IMPORT_RE code = [] ->
  ~ includes "import.meta.url" code ->
  (transformModule host code (Some r) w).1 = Normal code /\
  trace (transformModule host code (Some r) w).2 = trace w.
Proof.
  intros Hr Hnone Hmeta.
  assert (uniqueImports code = []) as Hu by (unfold uniqueImports; by rewrite Hnone).
  rewrite (transformModule_given host code r o) by done. cbn [fst snd].
  split.
  - unfold transform_outcome, rewrite_outcome.
    rewrite bool_decide_eq_true_2 by done.
    unfold rewrite_meta_url. destruct (url (with_defaults o)) as [u|]; [|done].
    destruct (truthy (Some u)); [|done].
    by rewrite replace_with_no_match by (by apply no_import_meta_url).
  - rewrite rewrite_world_trace. unfold rewrite_events. rewrite Hu. cbn.
    by rewrite app_nil_r.
Qed.

Lemma transformModule_identity_witness :
  (transformModule vue_host "export const x = 1" (Some 0) main_world).1
  = Normal "export const x = 1".
Proof.
  assert (~ includes "import.meta.url" "export const x = 1") as Hmeta.
  { intros H. apply (includes_test "i" (chars "mport.meta.url")) in H; [|reflexivity].
    by vm_compute in H. }
  destruct (transformModule_identity vue_host "export const x = 1" 0 main_options main_world
              eq_refl eq_refl Hmeta) as [H _].
  exact H.
Defined.

(** X13.  Without an options object [transformModule] rejects with a
    TypeError before anything else happens, and [resolveImports] rejects in
    the same way unless the text has no specifier, in which case it returns
    the text; [evalModule] makes an empty options object of its own, so that
    the imports of the text are resolved from the working directory. *)
Theorem calls_without_options host code w :
  transformModule host code None w = (Throw (TypeError_undefined "url"), w) /\
  (matchAll ESM_IMPORT_RE code = [] ->
   resolveImports host code None w = (Normal code, w)) /\
  (matchAll ESM_IMPORT_RE code <> [] ->
   resolveImports host code None w = (Throw (TypeError_undefined "url"), w)) /\
  (evalModule host code None w).1 = eval_outcome host code no_options /\
  trace (evalModule host code None w).2 = (trace w ++ eval_events host code no_options)%list /\
  resolved_from (URLObject (cwd_url host)) (eval_events host code no_options) /\
  (forall r x, heap w !! r = Some x -> heap (evalModule host code None w).2 !! r = Some x).
Proof.
  split; [reflexivity|]. split; [|split].
  - intros H. apply resolveImports_no_imports. unfold uniqueImports. by rewrite H.
  - intros H. unfold resolveImports. by rewrite bool_decide_eq_false_2.
  - assert (evalModule host code None w =
            evalModule host code (Some (fresh (dom (heap w))))
              {| heap := <[fresh (dom (heap w)) := no_options]> (heap w);
                 trace := trace w |}) as -> by reflexivity.
    rewrite (evalModule_given host code _ no_options) by (cbn; apply lookup_insert_eq).
    cbn [fst snd trace heap]. split; [done|]. split; [done|]. split.
    + unfold eval_events. apply Forall_app. split.
      * pose proof (rewrite_events_from host code (with_defaults no_options)) as H.
        exact H.
      * destruct (transform_outcome host code no_options); repeat constructor; done.
    + intros r x Hr.
      assert (r <> fresh (dom (heap w))) as Hne.
      { intros ->. by rewrite fresh_ref_unused in Hr. }
      apply (transformModule_heap host code (fresh (dom (heap w))) no_options).
      * cbn. apply lookup_insert_eq.
      * done.
      * cbn. by rewrite lookup_insert_ne.
Qed.

Lemma calls_without_options_witness :
  resolveImports vue_host "export const x = 1" None empty_world
  = (Normal "export const x = 1", empty_world).
Proof.
  destruct (calls_without_options vue_host "export const x = 1" empty_world)
    as (_ & H & _).
  exact (H eq_refl).
Defined.

(** ** Slashes and identifiers *)

Lemma chars_normalizeSlash s :
  chars (normalizeSlash s) =
  map (fun c => if Ascii.eqb c backslash then "/"%char else c) (chars s).
Proof. unfold normalizeSlash. by rewrite chars_str. Qed.

Lemma slash_of_fixed c :
  let f := fun c => if Ascii.eqb c backslash then "/"%char else c in
  f (f c) = f c /\ f c <> backslash.
Proof.
  cbn. destruct (Ascii.eqb c backslash) eqn:E; [done|].
  rewrite E. split; [done|]. intros ->. by rewrite Ascii.eqb_refl in E.
Qed.

Lemma normalizeSlash_no_backslash s : backslash ∉ chars (normalizeSlash s).
Proof.
  rewrite chars_normalizeSlash. intros (c & Hc & _)%list_elem_of_fmap.
  destruct (slash_of_fixed c) as [_ H]. by apply H.
Qed.

(** X14.  [normalizeSlash] leaves no backslash, keeps the length of the
    text and every character that is no backslash, and changes nothing when
    it is applied again or to a text without backslashes. *)
Theorem normalizeSlash_normal s :
  (backslash ∉ chars (normalizeSlash s)) /\
  length (chars (normalizeSlash s)) = length (chars s) /\
  (forall i c, chars s !! i = Some c -> c <> backslash ->
               chars (normalizeSlash s) !! i = Some c) /\
  normalizeSlash (normalizeSlash s) = normalizeSlash s /\
  (backslash ∉ chars s -> normalizeSlash s = s).
Proof.
  split; [apply normalizeSlash_no_backslash|].
  rewrite chars_normalizeSlash. split; [|split; [|split]].
  - by rewrite length_map.
  - intros i c Hi Hc. rewrite list_lookup_fmap, Hi. cbn [fmap option_fmap option_map].
    destruct (Ascii.eqb c backslash) eqn:E; [|done].
    by apply Ascii.eqb_eq in E.
  - rewrite <- (str_chars (normalizeSlash (normalizeSlash s))).
    rewrite <- (str_chars (normalizeSlash s)) at 2. f_equal.
    rewrite !chars_normalizeSlash, <- list_fmap_compose.
    apply list_fmap_ext. intros i c _. apply (slash_of_fixed c).
  - intros Hno. rewrite <- (str_chars s) at 2. unfold normalizeSlash. f_equal.
    rewrite <- (list_fmap_id (chars s)) at 2.
    apply list_fmap_ext. intros i c Hi. cbv beta. unfold id.
    fold backslash. destruct (Ascii.eqb c backslash) eqn:E; [|done].
    apply Ascii.eqb_eq in E. subst c. exfalso. apply Hno.
    by apply list_elem_of_lookup_2 in Hi.
Qed.

Lemma normalizeSlash_normal_witness :
  (backslash ∉ chars "src/lib/index.mjs") /\
  normalizeSlash "src/lib/index.mjs" = "src/lib/index.mjs" /\
  chars (normalizeSlash "src\lib") !! 0 = Some "s"%char.
Proof.
  assert (backslash ∉ chars "src/lib/index.mjs") as Hno
    by (refine (bool_decide_eq_false_1 _ _); by vm_compute).
  destruct (normalizeSlash_normal "src/lib/index.mjs") as (_ & _ & _ & _ & Hid).
  destruct (normalizeSlash_normal "src\lib") as (_ & _ & Hkeep & _).
  split; [exact Hno|]. split; [exact (Hid Hno)|].
  apply Hkeep; [reflexivity | discriminate].
Defined.

(** X15.  A path that [fileURLToPath], [resolvePathSync] or [resolvePath]
    returns contains no backslash. *)
Theorem returned_paths_have_no_backslash host w p w' :
  (forall l, fileURLToPath host l w = (Normal p, w') -> backslash ∉ chars p) /\
  (forall id opts, resolvePathSync host id opts w = (Normal p, w') -> backslash ∉ chars p) /\
  (forall id opts, resolvePath host id opts w = (Normal p, w') -> backslash ∉ chars p).
Proof.
  assert (forall l w0 w1, fileURLToPath host l w0 = (Normal p, w1) -> backslash ∉ chars p)
    as Hfile.
  { intros l w0 w1. unfold fileURLToPath, bind, lift.
    destruct l as [s|href].
    - destruct (negb (String.prefix "file://" s)).
      + intros [= <- _]. apply normalizeSlash_no_backslash.
      + destruct (url_fileURLToPath host (Str s)); [done|].
        intros [= <- _]. apply normalizeSlash_no_backslash.
    - destruct (url_fileURLToPath host (URLObject href)); [done|].
      intros [= <- _]. apply normalizeSlash_no_backslash. }
  assert (forall id opts, resolvePathSync host id opts w = (Normal p, w') ->
                          backslash ∉ chars p) as Hsync.
  { intros id opts. unfold resolvePathSync, bind.
    destruct (resolveSync host id opts w) as [[u|e|] w1]; [|done..].
    apply Hfile. }
  split; [intros l; apply Hfile|]. split; [exact Hsync|].
  intros id opts. unfold resolvePath, _pcall.
  destruct (resolvePathSync host id opts w) as [[q|e|] w1] eqn:E; [|done..].
  intros [= -> ->]. by apply (Hsync id opts).
Qed.

Lemma returned_paths_have_no_backslash_witness :
  fileURLToPath vue_host (Str "C:\work\a.mjs") empty_world = (Normal "C:/work/a.mjs", empty_world) /\
  backslash ∉ chars "C:/work/a.mjs".
Proof.
  split; [reflexivity|].
  destruct (returned_paths_have_no_backslash vue_host empty_world "C:/work/a.mjs" empty_world)
    as [H _].
  exact (H (Str "C:\work\a.mjs") eq_refl).
Defined.

Lemma file_marker_recognized marker rest :
  marker ∈ ["node:"; "data:"; "http:"; "https:"; "file:"] ->
  test PROTOCOL_OR_FILE_RE (marker ++ rest) = true.
Proof.
  rewrite !elem_of_cons, elem_of_nil.
  intros [-> | [-> | [-> | [-> | [-> | []]]]]]; reflexivity.
Qed.

(** X16.  What [normalizeid] returns always passes its own test for a
    scheme, so that [normalizeid] applied to its result changes nothing. *)
Theorem normalizeid_idempotent host l :
  test PROTOCOL_OR_FILE_RE (normalizeid host l) = true /\
  normalizeid host (Str (normalizeid host l)) = normalizeid host l.
Proof.
  assert (test PROTOCOL_OR_FILE_RE (normalizeid host l) = true) as H.
  { unfold normalizeid.
    destruct (test PROTOCOL_OR_FILE_RE (to_string l)) eqn:E; [done|].
    destruct (bool_decide _).
    - apply (file_marker_recognized "node:"). rewrite !elem_of_cons. auto.
    - apply (file_marker_recognized "file:" ("//" ++ normalizeSlash (to_string l))).
      rewrite !elem_of_cons. auto 6. }
  split; [exact H|]. unfold normalizeid at 1. cbn [to_string]. by rewrite H.
Qed.

(** X17.  The data URL that [toDataURL] makes is a specifier that [resolve]
    returns as it is, without calling the host. *)
Theorem data_url_resolves_to_itself host code opts w :
  resolve host (toDataURL host code) opts w =
  (Normal (toDataURL host code), append_trace w [EResolve (toDataURL host code)]).
Proof.
  unfold resolve, _pcall, resolveSync. rewrite _resolve_scheme; [done|].
  apply (scheme_prefix_recognized "data:" ("text/javascript;base64," ++ base64 host code)).
  unfold PASSED_SCHEMES. rewrite !elem_of_cons. auto.
Qed.

(** ** All specifiers are resolved *)

(** X18.  [resolveImports] resolves every specifier of the text once, in
    the order of the first occurrences, with the options [from := url], and
    goes through all of them whether or not a resolution fails; the
    caller's options are left as they are. *)
Theorem resolveImports_resolves_all host code r o w :
  heap w !! r = Some o ->
  let ids := new_Set (matchAll ESM_IMPORT_RE code) in
  let evs := concat (map (fun id => resolve_events host id (import_options o)) ids) in
  trace (resolveImports host code (Some r) w).2 = (trace w ++ evs)%list /\
  NoDup ids /\
  (forall id, id ∈ ids <-> id ∈ matchAll ESM_IMPORT_RE code) /\
  (forall id, id ∈ matchAll ESM_IMPORT_RE code -> resolve_calls id evs = 1) /\
  heap (resolveImports host code (Some r) w).2 !! r = Some o.
Proof.
  intros Hr ids evs. rewrite (resolveImports_given host code r o) by done. cbn [snd].
  split; [apply rewrite_world_trace|]. split; [apply NoDup_new_Set|].
  split; [intros id; apply elem_of_new_Set|]. split.
  - intros id Hid. by apply rewrite_resolves_once.
  - by apply rewrite_world_heap.
Qed.

Lemma resolveImports_resolves_all_witness :
  "./missing" ∈ matchAll ESM_IMPORT_RE broken_code /\
  (resolveImports vue_host broken_code (Some 0) main_world).1 =
    Throw {| name := "Error";
             message :=
               "Error: Cannot find module ./missing imported from file:///work/src/main.mjs";
             code := Some "ERR_MODULE_NOT_FOUND"; toString := None |} /\
  resolve_calls "./missing"
    (trace (resolveImports vue_host broken_code (Some 0) main_world).2) = 1 /\
  resolve_calls "vue"
    (trace (resolveImports vue_host broken_code (Some 0) main_world).2) = 1.
Proof.
  assert (matchAll ESM_IMPORT_RE broken_code = ["vue"; "./missing"]) as Hm by (by vm_compute).
  assert ("./missing" ∈ matchAll ESM_IMPORT_RE broken_code) as Hin
    by (rewrite Hm; apply list_elem_of_further, list_elem_of_here).
  assert ("vue" ∈ matchAll ESM_IMPORT_RE broken_code) as Hin'
    by (rewrite Hm; apply list_elem_of_here).
  destruct (resolveImports_resolves_all vue_host broken_code 0 main_options main_world
              eq_refl) as (Ht & _ & _ & Hc & _).
  split; [exact Hin|]. split; [by vm_compute|].
  rewrite Ht. cbn [trace main_world app].
  split; [exact (Hc _ Hin) | exact (Hc _ Hin')].
Defined.

(** ** What the extractor extracts *)

Lemma ESM_IMPORT_RE_branches :
  exists B1 B2 B3 B4 C4,
    ESM_IMPORT_RE =
      Alt (branch B1 QUOTE) (Alt (branch B2 QUOTE) (Alt (branch B3 QUOTE) (branch B4 C4))) /\
    last_atom B1 = QUOTE /\ last_atom B2 = QUOTE /\ last_atom B3 = QUOTE /\
    last_atom B4 = QUOTE /\ first_atom C4 = QUOTE.
Proof. do 5 eexists. split; [reflexivity|]. repeat split. Qed.

Lemma elem_of_flat_map {A B} (f : A -> list B) l y :
  y ∈ flat_map f l <-> exists x, x ∈ l /\ y ∈ f x.
Proof.
  rewrite list_elem_of_In, in_flat_map. split; intros (x & H1 & H2); exists x.
  - by rewrite !list_elem_of_In.
  - by rewrite <- !list_elem_of_In.
Qed.

Lemma elem_of_one p l i e :
  e ∈ one p l i <-> e = S i /\ exists c, l !! i = Some c /\ p c = true.
Proof.
  unfold one. destruct (l !! i) as [c|].
  - destruct (p c) eqn:E.
    + rewrite list_elem_of_singleton. split; [intros ->; eauto | by intros [-> _]].
    + rewrite elem_of_nil. split; [done|]. intros (_ & c' & [= <-] & ?). congruence.
  - rewrite elem_of_nil. split; [done|]. by intros (_ & c' & ? & _).
Qed.

Lemma ends_last_atom r l i e :
  e ∈ ends r l i -> exists m, e ∈ ends (last_atom r) l m.
Proof.
  revert i. induction r; intros i He; try (by exists i).
  cbn [last_atom]. cbn [ends] in He.
  apply elem_of_flat_map in He as (m & _ & He). by eapply IHr2.
Qed.

Lemma ends_first_atom r l i :
  ends r l i <> [] -> ends (first_atom r) l i <> [].
Proof.
  revert i. induction r; intros i Hne; try done.
  cbn [first_atom]. apply IHr1. intros E. apply Hne. cbn [ends]. by rewrite E.
Qed.

Lemma ends_QUOTE l i e :
  e ∈ ends QUOTE l i -> e = S i /\ exists c, l !! i = Some c /\ is_quote c.
Proof.
  unfold QUOTE. cbn [ends]. intros (-> & c & Hc & Hq)%elem_of_one.
  split; [done|]. exists c. split; [done|].
  unfold class_matches in Hq. cbn in Hq. unfold is_quote.
  destruct (Ascii.eqb c sq) eqn:E1; [left; by apply Ascii.eqb_eq|].
  destruct (Ascii.eqb c dq) eqn:E2; [right; by apply Ascii.eqb_eq|]. done.
Qed.

Lemma ends_NOT_QUOTE l i e :
  e ∈ ends NOT_QUOTE l i -> e = S i /\ exists c, l !! i = Some c /\ ~ is_quote c.
Proof.
  unfold NOT_QUOTE. cbn [ends]. intros (-> & c & Hc & Hq)%elem_of_one.
  split; [done|]. exists c. split; [done|].
  unfold class_matches in Hq. cbn in Hq. intros [-> | ->]; by vm_compute in Hq.
Qed.

Lemma star_NOT_QUOTE l g fuel i e :
  e ∈ star_ends (ends NOT_QUOTE l) g fuel i -> i <= e /\ quote_free l i e.
Proof.
  revert i. induction fuel as [|fuel IH]; intros i; cbn [star_ends].
  - rewrite list_elem_of_singleton. intros ->. split; [done|]. intros k ?. lia.
  - intros He.
    assert (e = i \/
            e ∈ flat_map (fun e0 => if Nat.ltb i e0
                                    then star_ends (ends NOT_QUOTE l) g fuel e0
                                    else []) (ends NOT_QUOTE l i)) as [->|Hm].
    { destruct g.
      - apply elem_of_app in He as [?|?%list_elem_of_singleton]; auto.
      - apply elem_of_cons in He as [?|?]; auto. }
    + split; [done|]. intros k ?. lia.
    + apply elem_of_flat_map in Hm as (m & (-> & c & Hc & Hq)%ends_NOT_QUOTE & Hm).
      rewrite (proj2 (Nat.ltb_lt i (S i))) in Hm by lia.
      apply IH in Hm as [Hle Hfree]. split; [lia|].
      intros k Hk. destruct (decide (k = i)) as [->|]; [eauto|]. apply Hfree. lia.
Qed.

Lemma ends_branch B C l i e :
  last_atom B = QUOTE -> first_atom C = QUOTE ->
  e ∈ ends (branch B C) l i ->
  i < e /\ quote_free l i e /\
  (exists k q, i = S k /\ l !! k = Some q /\ is_quote q) /\
  (exists q, l !! e = Some q /\ is_quote q).
Proof.
  intros HB HC. unfold branch. cbn [ends].
  intros (m & Hbehind & (m' & Hplus & Hahead)%elem_of_flat_map)%elem_of_flat_map.
  (* the look-behind *)
  destruct (existsb _ _) eqn:Hex in Hbehind; [|by apply elem_of_nil in Hbehind].
  cbn [xorb] in Hbehind. apply list_elem_of_singleton in Hbehind as ->.
  apply existsb_exists in Hex as (j & _ & Hj%bool_decide_eq_true).
  apply ends_last_atom in Hj as (k & Hk). rewrite HB in Hk.
  apply ends_QUOTE in Hk as (-> & q & Hq & Hquote).
  (* the run *)
  apply elem_of_flat_map in Hplus as (m1 & (-> & c & Hc & Hnq)%ends_NOT_QUOTE & Hstar).
  apply star_NOT_QUOTE in Hstar as [Hle Hfree].
  (* the look-ahead *)
  destruct (bool_decide (ends C l m' <> [])) eqn:Hah in Hahead;
    [|by apply elem_of_nil in Hahead].
  cbn [xorb] in Hahead. apply list_elem_of_singleton in Hahead as ->.
  apply bool_decide_eq_true in Hah. apply ends_first_atom in Hah. rewrite HC in Hah.
  destruct (ends QUOTE l m') as [|x xs] eqn:E; [done|].
  assert (x ∈ ends QUOTE l m') as Hx by (rewrite E; apply list_elem_of_here).
  apply ends_QUOTE in Hx as (_ & q' & Hq' & Hquote').
  split; [lia|]. split; [|split]; [|by exists k, q | by exists q'].
  intros n Hn. destruct (decide (n = S k)) as [->|]; [eauto|]. apply Hfree. lia.
Qed.

Lemma ends_ESM_IMPORT_RE l i e :
  e ∈ ends ESM_IMPORT_RE l i ->
  i < e /\ quote_free l i e /\
  (exists k q, i = S k /\ l !! k = Some q /\ is_quote q) /\
  (exists q, l !! e = Some q /\ is_quote q).
Proof.
  destruct ESM_IMPORT_RE_branches as (B1 & B2 & B3 & B4 & C4 & -> & H1 & H2 & H3 & H4 & H5).
  cbn [ends]. rewrite !elem_of_app.
  intros [H | [H | [H | H]]]; revert H; by apply ends_branch.
Qed.

Lemma find_from_first r l fuel start a b :
  find_from r l fuel start = Some (a, b) ->
  start <= a < start + fuel /\ (exists rest, ends r l a = b :: rest) /\
  forall i, start <= i < a -> ends r l i = [].
Proof.
  revert start. induction fuel as [|fuel IH]; intros start; cbn; [done|].
  destruct (ends r l start) as [|e es] eqn:E.
  - intros (Ha & Hb & Hnone)%IH. split; [lia|]. split; [done|].
    intros i Hi. destruct (decide (i = start)) as [->|]; [done|]. apply Hnone. lia.
  - intros [= <- <-]. split; [lia|]. split; [by exists es|]. intros i ?. lia.
Qed.

Lemma elem_of_matches_from r l fuel lastIndex a b :
  (a, b) ∈ matches_from r l fuel lastIndex -> b ∈ ends r l a.
Proof.
  revert lastIndex. induction fuel as [|fuel IH]; intros lastIndex; cbn.
  - by intros ?%elem_of_nil.
  - destruct (exec r l lastIndex) as [[a' b']|] eqn:E; [|by intros ?%elem_of_nil].
    intros [[= -> ->]|H]%elem_of_cons; [|by eapply IH].
    apply find_from_first in E as (_ & (rest & ->) & _). apply list_elem_of_here.
Qed.

Lemma match_between_quotes code a b :
  (a, b) ∈ all_matches ESM_IMPORT_RE (chars code) ->
  let l := chars code in
  a < b <= length l /\
  (forall c, c ∈ slice l a b -> ~ is_quote c) /\
  str (slice l a b) <> EmptyString /\
  (exists k q, a = S k /\ l !! k = Some q /\ is_quote q) /\
  (exists q, l !! b = Some q /\ is_quote q).
Proof.
  intros H%elem_of_matches_from l.
  apply ends_ESM_IMPORT_RE in H as (Hlt & Hfree & Hbefore & Hafter). fold l in Hfree, Hbefore, Hafter.
  assert (b <= length l) as Hb.
  { destruct Hafter as (q & Hq & _). apply lookup_lt_Some in Hq. lia. }
  split; [lia|]. split; [|split; [|by split]].
  - intros c Hc. unfold slice in Hc.
    apply list_elem_of_lookup in Hc as (n & Hn).
    apply lookup_take_Some in Hn as [Hn Hlen]. rewrite lookup_drop in Hn.
    destruct (Hfree (a + n)) as (c' & Hc' & Hq); [lia|]. congruence.
  - intros E. assert (length (slice l a b) = 0) as Hlen.
    { rewrite <- (chars_str (slice l a b)), E. done. }
    unfold slice in Hlen. rewrite length_take, length_drop in Hlen. lia.
Qed.

(** X19.  Every specifier that the extractor yields is a non-empty run of
    characters without quotes, and stands in the text between two quote
    characters. *)
Theorem extracted_specifier_between_quotes code :
  (forall m, m ∈ matchAll ESM_IMPORT_RE code ->
             m <> EmptyString /\ (sq ∉ chars m) /\ (dq ∉ chars m)) /\
  (forall a b, (a, b) ∈ all_matches ESM_IMPORT_RE (chars code) ->
               a < b <= length (chars code) /\
               (exists k q, a = S k /\ chars code !! k = Some q /\ is_quote q) /\
               (exists q, chars code !! b = Some q /\ is_quote q)).
Proof.
  split.
  - unfold matchAll. intros m ([a b] & -> & H)%list_elem_of_fmap.
    destruct (match_between_quotes code a b H) as (_ & Hfree & Hne & _).
    split; [exact Hne|]. rewrite chars_str.
    split; intros Hc; apply (Hfree _ Hc); [by left | by right].
  - intros a b H. destruct (match_between_quotes code a b H) as (? & _ & _ & ? & ?).
    done.
Qed.

Lemma extracted_specifier_between_quotes_witness :
  (17, 20) ∈ all_matches ESM_IMPORT_RE (chars "import Vue from 'vue'") /\
  str (slice (chars "import Vue from 'vue'") 17 20) = "vue" /\
  chars "import Vue from 'vue'" !! 16 = Some sq /\
  chars "import Vue from 'vue'" !! 20 = Some sq /\
  17 < 20 <= length (chars "import Vue from 'vue'").
Proof.
  assert ((17, 20) ∈ all_matches ESM_IMPORT_RE (chars "import Vue from 'vue'")) as Hin
    by (vm_compute; apply list_elem_of_here).
  destruct (extracted_specifier_between_quotes "import Vue from 'vue'") as [_ H].
  destruct (H 17 20 Hin) as (Hlen & _).
  split; [exact Hin|]. split; [reflexivity|]. split; [reflexivity|].
  split; [reflexivity | exact Hlen].
Defined.

(** ** Replacing the occurrences of a word *)

Lemma replace_all_skip sub rep k s :
  replace_all sub rep k s = replace_all sub rep 0 (drop k s).
Proof.
  revert k. induction s as [|c s IH]; intros k; [by destruct k|].
  destruct k as [|k]; [done|]. cbn [replace_all drop]. apply IH.
Qed.

Lemma replace_all_copy sub rep n s :
  (forall i, i < n -> ~ sub `prefix_of` drop i s) ->
  replace_all sub rep 0 s = (take n s ++ replace_all sub rep 0 (drop n s))%list.
Proof.
  revert s. induction n as [|n IH]; intros s Hno; [done|].
  destruct s as [|c s]; [done|].
  cbn [replace_all take drop app]. rewrite decide_False by (apply (Hno 0); lia).
  f_equal. apply IH. intros i Hi. apply (Hno (S i)). lia.
Qed.

Lemma replace_all_at sub rep s :
  sub <> [] -> sub `prefix_of` s ->
  replace_all sub rep 0 s = (rep ++ replace_all sub rep 0 (drop (length sub) s))%list.
Proof.
  intros Hne Hp. destruct s as [|c s].
  - apply prefix_nil_inv in Hp. done.
  - cbn [replace_all]. rewrite decide_True by done. f_equal.
    rewrite replace_all_skip. destruct sub as [|x sub]; [done|].
    replace (length (x :: sub) - 1) with (length sub) by (cbn [length]; lia).
    reflexivity.
Qed.

Lemma find_from_None_inv r l fuel start :
  find_from r l fuel start = None ->
  forall i, start <= i < start + fuel -> ends r l i = [].
Proof.
  intros Hnone i Hi. destruct (ends r l i) as [|e es] eqn:E; [done|].
  assert (is_Some (find_from r l fuel start)) as [m Hm].
  { apply find_from_is_Some. exists i. split; [done|]. by rewrite E. }
  congruence.
Qed.

(** The matches of a pattern that matches the word [sub] and nothing else,
    replaced by [rep]. *)
Lemma splice_word r sub l f rep fuel pos :
  sub <> [] ->
  (forall i, ends r l i =
             if decide (sub `prefix_of` drop i l) then [i + length sub] else []) ->
  (forall before after, f sub before after = rep) ->
  pos <= length l -> length l - pos < fuel ->
  splice l f pos (matches_from r l fuel pos) = replace_all sub rep 0 (drop pos l).
Proof.
  intros Hne Hends Hf. revert pos. induction fuel as [|fuel IH]; intros pos Hpos Hfuel; [lia|].
  cbn [matches_from]. unfold exec.
  destruct (find_from r l (S (length l) - pos) pos) as [[a b]|] eqn:E.
  - apply find_from_first in E as (Ha & (rest & Hb) & Hnone).
    rewrite Hends in Hb. destruct (decide (sub `prefix_of` drop a l)) as [Hp|]; [|done].
    injection Hb as <- _.
    assert (0 < length sub) as Hlen by (destruct sub; [done | cbn; lia]).
    assert (a + length sub <= length l) as Hfit.
    { apply prefix_length in Hp. rewrite length_drop in Hp. lia. }
    rewrite (proj2 (Nat.eqb_neq a (a + length sub))) by lia.
    cbn [splice]. rewrite IH by lia.
    assert (slice l a (a + length sub) = sub) as ->.
    { unfold slice. destruct Hp as [k ->].
      replace (a + length sub - a) with (length sub) by lia. by rewrite take_app_length. }
    rewrite Hf.
    rewrite (replace_all_copy sub rep (a - pos) (drop pos l)).
    + rewrite drop_drop. replace (pos + (a - pos)) with a by lia.
      rewrite (replace_all_at sub rep (drop a l)) by done.
      rewrite drop_drop. done.
    + intros i Hi. rewrite drop_drop. intros Hp'.
      specialize (Hnone (pos + i)). rewrite Hends, decide_True in Hnone by done.
      discriminate Hnone. lia.
  - cbn [splice].
    rewrite (replace_all_copy sub rep (length (drop pos l)) (drop pos l)).
    + rewrite take_ge, drop_all by done. cbn. by rewrite app_nil_r.
    + intros i Hi. rewrite drop_drop. intros Hp.
      rewrite length_drop in Hi.
      pose proof (find_from_None_inv _ _ _ _ E (pos + i)) as H.
      rewrite Hends, decide_True in H by done. discriminate H. lia.
Qed.

Lemma replace_with_word r sub s f rep :
  sub <> [] ->
  (forall i, ends r (chars s) i =
             if decide (sub `prefix_of` drop i (chars s)) then [i + length sub] else []) ->
  (forall before after, f sub before after = rep) ->
  replace_with r s f = str (replace_all sub rep 0 (chars s)).
Proof.
  intros Hne Hends Hf. unfold replace_with, all_matches. f_equal.
  rewrite (splice_word r sub (chars s) f rep) by (done || lia). done.
Qed.

Lemma get_substitution_plain template matched before after :
  "$"%char ∉ template -> get_substitution template matched before after = template.
Proof.
  induction template as [|c t IH]; [done|]. intros Hno.
  cbn [get_substitution]. destruct (Ascii.eqb c "$") eqn:E.
  - apply Ascii.eqb_eq in E. subst c. exfalso. apply Hno, list_elem_of_here.
  - f_equal. apply IH. intros ?. apply Hno. by apply list_elem_of_further.
Qed.

(** X20.  When [url] (or, in its absence, [from]) contains no dollar
    sign, [transformModule] replaces every occurrence of [import.meta.url]
    in the rewritten text, from left to right, by that location between
    single quotes. *)
Theorem import_meta_url_replaced host code r o w u rewritten :
  heap w !! r = Some o ->
  url (with_defaults o) = Some u ->
  truthy (Some u) = true ->
  "$"%char ∉ chars (to_string u) ->
  rewrite_outcome host code (with_defaults o) = Normal rewritten ->
  (transformModule host code (Some r) w).1 =
  Normal (str (replace_all (chars "import.meta.url") (chars ("'" ++ to_string u ++ "'")) 0
                 (chars rewritten))).
Proof.
  intros Hr Hu Htu Hno Hrw.
  rewrite (transformModule_given host code r o) by done. cbn [fst].
  unfold transform_outcome. rewrite Hrw. f_equal.
  unfold rewrite_meta_url. rewrite Hu, Htu.
  apply replace_with_word; [done | |].
  - intros i. rewrite IMPORT_META_URL_RE_lit, ends_lit. by repeat case_decide.
  - intros before after. apply get_substitution_plain.
    rewrite !chars_app. cbn [chars list_ascii_of_string app].
    rewrite elem_of_cons, elem_of_app, list_elem_of_singleton.
    intros [|[|]]; done.
Qed.

Lemma import_meta_url_replaced_witness :
  (transformModule vue_host "const a = import.meta.url, b = import.meta.url"
     (Some 0) (world_of from_options)).1 =
  Normal ("const a = 'file:///work/src/main.mjs', b = 'file:///work/src/main.mjs'").
Proof.
  rewrite (import_meta_url_replaced vue_host _ 0 from_options (world_of from_options)
             (Str "file:///work/src/main.mjs")
             "const a = import.meta.url, b = import.meta.url"
             eq_refl eq_refl eq_refl).
  - by vm_compute.
  - refine (bool_decide_eq_false_1 _ _). by vm_compute.
  - by vm_compute.
Defined.

(** ** The pattern of one plain specifier *)

Lemma plain_neq c x :
  plain c = true ->
  x ∈ ["\"; "("; ")"; "|"; "*"; "+"; "?"; "["; "{"; "."; "^"; "$"]%char ->
  Ascii.eqb c x = false.
Proof.
  unfold plain. intros H%negb_true_iff Hx.
  destruct (Ascii.eqb c x) eqn:E; [|done].
  apply Ascii.eqb_eq in E. subst x.
  assert (existsb (Ascii.eqb c)
            ["\"; "("; ")"; "|"; "*"; "+"; "?"; "["; "{"; "."; "^"; "$"]%char = true) as Ht.
  { apply existsb_exists. exists c. split; [by apply list_elem_of_In|]. apply Ascii.eqb_refl. }
  congruence.
Qed.

Ltac plain_char H :=
  rewrite !(plain_neq _ _ H) by (rewrite !elem_of_cons; auto 20).

Lemma normal_step_plain st c :
  plain c = true -> normal_step st c = inl (push st (atom c)).
Proof. intros H. unfold normal_step. cbn [existsb]. plain_char H. reflexivity. Qed.

Lemma run_plain cs st rest :
  Forall (fun c => plain c = true) cs ->
  md st = MNormal ->
  run st (cs ++ rest) =
  run {| stack := stack st; alts := alts st;
         cur := rev (map atom cs) ++ cur st; md := MNormal |} rest.
Proof.
  revert st. induction cs as [|c cs IH]; intros st Hplain Hmd.
  - destruct st. cbn in *. by subst.
  - apply Forall_cons in Hplain as [Hc Hcs].
    cbn [run app]. unfold step. rewrite Hmd, normal_step_plain by done.
    rewrite IH by done. cbn [push stack alts cur map rev].
    by rewrite <- app_assoc.
Qed.

Lemma mk_seq_lit c cs : mk_seq (rev (map atom (c :: cs))) = lit c cs.
Proof.
  unfold mk_seq. revert c. induction cs as [|c' cs IH]; intros c; [done|].
  cbn [map rev] in *. rewrite fold_left_app. cbn [fold_left].
  rewrite IH. cbn [lit]. by destruct cs.
Qed.

Lemma compile_plain_group s c cs :
  chars s = c :: cs ->
  Forall (fun c => plain c = true) (c :: cs) ->
  compile ("(" ++ s ++ ")") = Compiled (Group (lit c cs)).
Proof.
  intros Hs [Hc Hcs]%Forall_cons. unfold compile.
  rewrite !chars_app, Hs.
  change (chars "(") with ["("%char]. change (chars ")") with [")"%char].
  cbn [app run]. unfold step at 1. cbn [md]. unfold normal_step at 1. cbn [Ascii.eqb Bool.eqb stack alts cur].
  unfold step at 1. cbn [md]. rewrite (plain_neq c "?") by (done || rewrite !elem_of_cons; auto 20).
  rewrite normal_step_plain by done. cbn [push stack alts cur].
  rewrite run_plain by done. cbn [stack alts cur run].
  unfold step. cbn [md]. unfold normal_step. cbn [Ascii.eqb Bool.eqb stack alts cur f_alts f_cur f_kind wrap md].
  rewrite <- (mk_seq_lit c cs). reflexivity.
Qed.

(** X21.  When the text has one specifier, made of characters that stand
    for themselves in a pattern, and the specifier resolves, then
    [resolveImports] replaces every occurrence of the specifier's text in the
    source, from left to right, by the resolved URL: the occurrences in the
    import statements and any other. *)
Theorem single_specifier_replaced_everywhere host code r o w s u :
  heap w !! r = Some o ->
  new_Set (matchAll ESM_IMPORT_RE code) = [s] ->
  Forall (fun c => plain c = true) (chars s) ->
  resolve_outcome host s (import_options o) = Normal u ->
  (resolveImports host code (Some r) w).1 =
  Normal (str (replace_all (chars s) (chars u) 0 (chars code))).
Proof.
  intros Hr Hids Hplain Hu.
  rewrite (resolveImports_given host code r o) by done. cbn [fst].
  unfold rewrite_outcome, uniqueImports. rewrite Hids.
  rewrite bool_decide_eq_false_2 by done.
  cbn [map settle_all]. unfold entry. rewrite Hu.
  destruct (chars s) as [|c cs] eqn:Hs.
  { exfalso.
    assert (s ∈ matchAll ESM_IMPORT_RE code) as Hin
      by (apply elem_of_new_Set; rewrite Hids; apply list_elem_of_here).
    unfold matchAll in Hin. apply list_elem_of_fmap in Hin as ([a b] & -> & Hab).
    apply match_between_quotes in Hab as (_ & _ & Hne & _).
    apply Hne. rewrite <- (str_chars (str _)), Hs. done. }
  unfold substitute, bind, new_RegExp. cbn [map String.concat].
  rewrite (compile_plain_group s c cs) by done. cbn [ret fst]. f_equal.
  apply replace_with_word; [done | |].
  - intros i. change (ends (Group (lit c cs)) (chars code) i) with (ends (lit c cs) (chars code) i).
    rewrite ends_lit. by repeat case_decide.
  - intros before after. rewrite <- Hs, str_chars. unfold get_resolved.
    cbn [list_to_map foldr fst snd]. by rewrite lookup_insert_eq.
Qed.

Lemma single_specifier_replaced_everywhere_witness :
  (resolveImports vue_host "import Vue from 'vue' // the vue runtime" (Some 0) main_world).1 =
  Normal ("import Vue from 'file:///work/node_modules/vue/index.mjs' " ++
          "// the file:///work/node_modules/vue/index.mjs runtime").
Proof.
  rewrite (single_specifier_replaced_everywhere vue_host _ 0 main_options main_world "vue"
             "file:///work/node_modules/vue/index.mjs" eq_refl).
  - by vm_compute.
  - by vm_compute.
  - repeat constructor.
  - by vm_compute.
Defined.

(** ** CommonJS: the native require is made on first use *)

Module CommonJSFacts.
Import CommonJS.

Section Facts.

Context {Value ResolveOptions : Type}.
Variable env : Env Value ResolveOptions.
Variable url : location.

Lemma uses_with_native native us c :
  _nativeRequire _ _ c = Some native ->
  uses _ _ env url us c = (map (native_answer _ _ native) us, c).
Proof.
  intros Hc. induction us as [|u us IH]; [done|].
  cbn [uses map]. unfold use, require, require_resolve, getNativeRequire.
  destruct u; rewrite Hc; cbn; by rewrite IH.
Qed.

(** X22.  The native [require] is not made when [createCommonJS] is
    called, but at the first use of [require] or [require.resolve], and it
    is kept: however many uses follow, [createRequire] is called once, and
    every use is answered by the function it returned.  When
    [createRequire] fails, the use fails with its error and the next use
    calls it again. *)
Theorem native_require_created_once us :
  (forall host ctx,
     createCommonJS _ _ env url host = Normal ctx ->
     cell _ _ ctx = fresh_cell _ _ /\
     __dirname _ _ ctx = dirname _ _ env (__filename _ _ ctx)) /\
  (forall native,
     createRequire _ _ env url = inr native ->
     uses _ _ env url us (fresh_cell _ _) =
     (map (native_answer _ _ native) us,
      match us with
      | [] => fresh_cell _ _
      | _ => {| _nativeRequire := Some native; created := [url] |}
      end)) /\
  (forall e,
     createRequire _ _ env url = inl e ->
     uses _ _ env url us (fresh_cell _ _) =
     (map (failed_answer _ _ e) us,
      {| _nativeRequire := None; created := repeat url (length us) |})).
Proof.
  split; [|split].
  - intros host ctx. unfold createCommonJS.
    destruct (fileURLToPath host url empty_world).1; [|done..].
    by intros [= <-].
  - intros native Hn. destruct us as [|u us]; [done|].
    cbn [uses map]. unfold use, require, require_resolve, getNativeRequire.
    cbn [_nativeRequire fresh_cell created app]. rewrite Hn.
    destruct u; cbn -[uses]; by rewrite (uses_with_native native).
  - intros e He.
    assert (forall log,
              uses _ _ env url us {| _nativeRequire := None; created := log |} =
              (map (failed_answer _ _ e) us,
               {| _nativeRequire := None; created := log ++ repeat url (length us) |})) as H.
    { induction us as [|u us IH]; intros log; [by rewrite app_nil_r|].
      cbn [uses map]. unfold use, require, require_resolve, getNativeRequire.
      cbn [_nativeRequire created]. rewrite He.
      destruct u; cbn -[uses]; rewrite IH; cbn; by rewrite <- app_assoc. }
    apply (H []).
Qed.

End Facts.

Lemma native_require_created_once_witness :
  uses _ _ demo_env (Str "file:///work/a.mjs")
    [Require "x"; Resolve "y" None; Require "z"] (fresh_cell _ _) =
  ([inl (inr "module x"); inr (inr "/work/node_modules/y/index.js"); inl (inr "module z")],
   {| _nativeRequire := Some demo_native; created := [Str "file:///work/a.mjs"] |}).
Proof.
  destruct (native_require_created_once demo_env (Str "file:///work/a.mjs")
              [Require "x"; Resolve "y" None; Require "z"]) as (_ & H & _).
  exact (H demo_native eq_refl).
Defined.

End CommonJSFacts.
